(** * OpenAlice event log: an append-only JSONL log with live subscribers

    A shallow embedding of [createEventLog] and of the closures it returns
    ([append], [read], [lastSeq], [subscribe], [subscribeType], [close],
    [_resetForTest]) and of the helpers [recoverLastSeq] and [isENOENT];
    then of the class [DailyLossCircuitBreaker] and of the part of
    [ExecutionMetricsCollector] that keeps the metrics and their file.
    [summary] and [percentile] of the latter compute on floating-point
    numbers and are left out.

    Conventions of the embedding.
    - A JavaScript [number] used as a counter, a timestamp, a cursor or a
      limit is an integer of [Z]; [Infinity] (the default limit) is [None].
      The arithmetic of a [number] is that of [Z] on the safe integers
      ([JS.isSafeInteger]); a statement on the counter of a log in an
      arbitrary state says so.  Fractional limits and cursors are not
      covered.
    - A JavaScript string is a [string] whose characters are code units
      below 256.
    - The file at [logPath] is an [option string]: [None] when it does not
      exist.  Faults of the file system and the clock are inputs of the
      operations.
    - [JSON.parse] and [JSON.stringify] belong to the platform: they are
      variables of the section.  The source casts the parsed value to
      [EventLogEntry]; the embedding follows the cast, so that a line either
      fails to parse or yields an entry: it covers the files whose lines
      that parse are records with an integer [seq] and a string [type], as
      [append] writes them.  The cast checks nothing, and a line that
      parses to another value (an object without [seq], a number) is not
      covered.
    - A listener is a function object: its identity is a number, its body an
      input of [append].  A [Set] keeps its slots in insertion order and an
      emptied slot stays in place, which is what iteration observes. *)

From Stdlib Require Import Ascii.
From Stdlib Require QArith Qabs.
From stdpp Require Import base numbers list strings gmap pretty sorting.

Local Open Scope Z_scope.

(** ** JavaScript strings *)

Module JS.

(** [WhiteSpace] and [LineTerminator] code units below 256: what
    [String.prototype.trim] removes. *)
Definition isWhiteSpace (c : ascii) : bool :=
  match c with
  | "009" | "010" | "011" | "012" | "013" | " " | "160" => true
  | _ => false
  end%char.

Fixpoint trimStart (s : string) : string :=
  match s with
  | EmptyString => EmptyString
  | String c r => if isWhiteSpace c then trimStart r else s
  end.

Fixpoint trimEnd (s : string) : string :=
  match s with
  | EmptyString => EmptyString
  | String c r =>
      match trimEnd r with
      | EmptyString => if isWhiteSpace c then EmptyString else String c EmptyString
      | r' => String c r'
      end
  end.

Definition trim (s : string) : string := trimStart (trimEnd s).

(** [!s] for a string [s]: only the empty string is falsy. *)
Definition falsy (s : string) : bool :=
  match s with EmptyString => true | _ => false end.

Definition isNewline (c : ascii) : bool :=
  match c with "010"%char => true | _ => false end.

(** The string ['\n']. *)
Definition newline : string := String "010"%char EmptyString.

(** [Number.MAX_SAFE_INTEGER] and [Number.isSafeInteger], for a [number]
    that is an integer: on the safe integers, adding one to a [number] is
    adding one in [Z]. *)
Definition MAX_SAFE_INTEGER : Z := 2 ^ 53 - 1.

Definition isSafeInteger (n : Z) : Prop :=
  - MAX_SAFE_INTEGER ≤ n ∧ n ≤ MAX_SAFE_INTEGER.

(** [s.split('\n')]: never empty, [''.split('\n')] is [['']]. *)
Fixpoint split_nl (s : string) : list string :=
  match s with
  | EmptyString => [EmptyString]
  | String c r =>
      if isNewline c then EmptyString :: split_nl r
      else match split_nl r with
           | h :: t => String c h :: t
           | [] => [String c EmptyString]
           end
  end.

(** A [Set] of values of type [A], as its list of slots. *)
Abbreviation Set_ A := (list (option A)).

Section JSSet.
Context {A : Type} `{EqDecision A}.

Definition has (x : A) (s : Set_ A) : bool := bool_decide (Some x ∈ s).

Definition add (x : A) (s : Set_ A) : Set_ A :=
  if has x s then s else s ++ [Some x].

Definition delete (x : A) (s : Set_ A) : Set_ A :=
  (λ slot, if decide (slot = Some x) then None else slot) <$> s.

Definition clear (s : Set_ A) : Set_ A := (λ _, None) <$> s.

(** The members, in insertion order. *)
Definition members (s : Set_ A) : list A := omap id s.

Definition size (s : Set_ A) : nat := length (members s).
End JSSet.

End JS.

(** ** Thrown values and the file system *)

(** A thrown value; [code] is the [code] property of a
    [NodeJS.ErrnoException], absent on other errors. *)
Record Error := { code : option string }.

Definition ENOENT : Error := {| code := Some "ENOENT" |}.

Definition isENOENT (err : Error) : bool :=
  bool_decide (code err = Some "ENOENT").

(** [A] or a thrown [Error]. *)
Definition throws (A : Type) : Type := Error + A.

(** [readFile(logPath, 'utf-8')]: [fault] is an I/O failure met by this
    call, if any. *)
Definition readFile (fault : option Error) (file : option string) : throws string :=
  match fault with
  | Some err => inl err
  | None => match file with
            | None => inl ENOENT
            | Some raw => inr raw
            end
  end.

(** ** Types *)

Record EventLogEntry (T : Type) := {
  seq : Z;
  ts : Z;
  type : string;
  payload : T;
}.
Arguments seq {T} _.
Arguments ts {T} _.
Arguments type {T} _.
Arguments payload {T} _.

(** A listener is a function object; the number is its identity. *)
Definition listener := nat.

(** The function returned by [subscribe], or by [subscribeType] with the
    [Set], the type and the listener it captured. *)
Inductive unsubscribe :=
| UnsubListener (l : listener)
| UnsubTypeListener (set : nat) (ty : string) (l : listener).

(** What a listener may call on the log while it runs. *)
Inductive action :=
| DoSubscribe (l : listener)
| DoSubscribeType (ty : string) (l : listener)
| DoUnsubscribe (u : unsubscribe)
| DoClose.

(** One call of a listener: the calls it makes on the log, in order, and
    whether it throws in the end. *)
Record reaction := { calls : list action; threw : bool }.

(** The action registers the listener [f]. *)
Definition subscribes (f : listener) (a : action) : Prop :=
  match a with
  | DoSubscribe l | DoSubscribeType _ l => l = f
  | DoUnsubscribe _ | DoClose => False
  end.

Inductive setref :=
| Listeners
| TypeSet (set : nat).

(** A failed [appendFile]: the error, and how many characters of the data
    reached the file all the same. *)
Record WriteFault := { wf_error : Error; wf_written : nat }.

(** The argument of [read]; every field is optional.  [afterSeq] and
    [limit], when given, are integers. *)
Record ReadOpts := {
  opt_afterSeq : option Z;
  opt_limit : option Z;
  opt_type : option string;
}.

Definition noOpts : ReadOpts :=
  {| opt_afterSeq := None; opt_limit := None; opt_type := None |}.

Section Codec.

Context {T : Type}.

(** [JSON.parse(line)] cast to [EventLogEntry]: [None] when it throws.
    The lines that parse are taken to hold records with an integer [seq],
    an integer [ts] and a string [type]. *)
Variable JSON_parse : string → option (EventLogEntry T).

(** ** Recovery *)

(** The loop of [recoverLastSeq]; [n] is [i + 1]. *)
Fixpoint recover_loop (lines : list string) (n : nat) : throws Z :=
  match n with
  | O => inr 0
  | S i =>
      match lines !! i with
      | None => inl {| code := None |}
      | Some l =>
          let line := JS.trim l in
          if JS.falsy line then recover_loop lines i
          else match JSON_parse line with
               | Some entry => inr (seq entry)
               | None => recover_loop lines i
               end
      end
  end.

Definition recoverLastSeq (fault : option Error) (file : option string) : throws Z :=
  match readFile fault file with
  | inl err => if isENOENT err then inr 0 else inl err
  | inr raw =>
      if JS.falsy (JS.trim raw) then inr 0
      else
        let lines := JS.split_nl (JS.trimEnd raw) in
        recover_loop lines (length lines)
  end.

(** ** Read *)

(** [results.length >= limit] *)
Definition limit_reached (results : list (EventLogEntry T)) (limit : option Z) : bool :=
  match limit with
  | None => false
  | Some n => bool_decide (n ≤ Z.of_nat (length results))
  end.

(** [filterType && entry.type !== filterType] *)
Definition type_mismatch (filterType : option string) (entry : EventLogEntry T) : bool :=
  match filterType with
  | None => false
  | Some t => negb (JS.falsy t) && negb (bool_decide (type entry = t))
  end.

(** The loop of [read].  Besides [results] it returns the lines that were
    never looked at because of the [break]. *)
Fixpoint read_loop (afterSeq : Z) (limit : option Z) (filterType : option string)
    (lines : list string) (results : list (EventLogEntry T))
    : list (EventLogEntry T) * list string :=
  match lines with
  | [] => (results, [])
  | line :: rest =>
      if JS.falsy (JS.trim line) then read_loop afterSeq limit filterType rest results
      else match JSON_parse line with
           | None => read_loop afterSeq limit filterType rest results
           | Some entry =>
               if bool_decide (seq entry ≤ afterSeq)
               then read_loop afterSeq limit filterType rest results
               else if type_mismatch filterType entry
               then read_loop afterSeq limit filterType rest results
               else
                 let results := results ++ [entry] in
                 if limit_reached results limit then (results, rest)
                 else read_loop afterSeq limit filterType rest results
           end
  end.

Definition read (fault : option Error) (file : option string) (readOpts : ReadOpts)
    : throws (list (EventLogEntry T)) :=
  let afterSeq := default 0 (opt_afterSeq readOpts) in
  let limit := opt_limit readOpts in
  let filterType := opt_type readOpts in
  match readFile fault file with
  | inl err => if isENOENT err then inr [] else inl err
  | inr raw =>
      let lines := JS.split_nl raw in
      inr (fst (read_loop afterSeq limit filterType lines []))
  end.

(** ** The state of one log instance *)

(** The variables captured by the closures: [seq], [listeners] and
    [typeListeners].  The [Set] objects held by [typeListeners] live in
    [st_sets] and the map holds their addresses, because the function
    returned by [subscribeType] keeps the object itself, which the map may
    have dropped since. *)
Record EventLog := {
  st_seq : Z;
  st_listeners : JS.Set_ listener;
  st_sets : list (JS.Set_ listener);
  st_typeListeners : gmap string nat;
}.

Definition with_seq (n : Z) (st : EventLog) : EventLog :=
  {| st_seq := n; st_listeners := st_listeners st;
     st_sets := st_sets st; st_typeListeners := st_typeListeners st |}.

Definition with_listeners (s : JS.Set_ listener) (st : EventLog) : EventLog :=
  {| st_seq := st_seq st; st_listeners := s;
     st_sets := st_sets st; st_typeListeners := st_typeListeners st |}.

Definition with_sets (h : list (JS.Set_ listener)) (st : EventLog) : EventLog :=
  {| st_seq := st_seq st; st_listeners := st_listeners st;
     st_sets := h; st_typeListeners := st_typeListeners st |}.

Definition with_typeListeners (m : gmap string nat) (st : EventLog) : EventLog :=
  {| st_seq := st_seq st; st_listeners := st_listeners st;
     st_sets := st_sets st; st_typeListeners := m |}.

Definition lastSeq (st : EventLog) : Z := st_seq st.

(** ** Subscribe *)

Definition subscribe (l : listener) (st : EventLog) : unsubscribe * EventLog :=
  (UnsubListener l, with_listeners (JS.add l (st_listeners st)) st).

Definition subscribeType (ty : string) (l : listener) (st : EventLog)
    : unsubscribe * EventLog :=
  let '(set, st) :=
    match st_typeListeners st !! ty with
    | Some set => (set, st)
    | None =>
        let set := length (st_sets st) in
        (set, with_typeListeners (<[ty := set]> (st_typeListeners st))
                (with_sets (st_sets st ++ [[]]) st))
    end in
  (UnsubTypeListener set ty l, with_sets (alter (JS.add l) set (st_sets st)) st).

(** Calling a function returned by [subscribe] or [subscribeType]. *)
Definition call_unsubscribe (u : unsubscribe) (st : EventLog) : EventLog :=
  match u with
  | UnsubListener l => with_listeners (JS.delete l (st_listeners st)) st
  | UnsubTypeListener set ty l =>
      let st := with_sets (alter (JS.delete l) set (st_sets st)) st in
      match st_sets st !! set with
      | Some s =>
          if bool_decide (JS.size s = 0%nat)
          then with_typeListeners (delete ty (st_typeListeners st)) st
          else st
      | None => st
      end
  end.

(** ** Lifecycle *)

Definition close (st : EventLog) : EventLog :=
  with_typeListeners ∅ (with_listeners (JS.clear (st_listeners st)) st).

(** [unlink(logPath)]: [fault] is an I/O failure met by this call, if
    any. *)
Definition unlink (fault : option Error) (file : option string)
    : throws unit * option string :=
  match fault with
  | Some err => (inl err, file)
  | None => match file with
            | None => (inl ENOENT, None)
            | Some _ => (inr (), None)
            end
  end.

Definition _resetForTest (unlink_fault : option Error) (st : EventLog)
    (file : option string) : throws unit * EventLog * option string :=
  let st := close (with_seq 0 st) in
  match unlink unlink_fault file with
  | (inl err, file) =>
      if isENOENT err then (inr (), st, file) else (inl err, st, file)
  | (inr _, file) => (inr (), st, file)
  end.

(** [mkdir_fault] is a failure of [mkdir]. *)
Definition createEventLog (mkdir_fault read_fault : option Error)
    (file : option string) : throws EventLog :=
  match mkdir_fault with
  | Some err => inl err
  | None =>
      match recoverLastSeq read_fault file with
      | inl err => inl err
      | inr n =>
          inr {| st_seq := n; st_listeners := []; st_sets := [];
                 st_typeListeners := ∅ |}
      end
  end.

(** ** Append *)

(** [JSON.stringify(entry)]; it throws on a payload it cannot serialise. *)
Variable JSON_stringify : EventLogEntry T → throws string.

(** What each listener does when it is called with an entry. *)
Variable body : listener → EventLogEntry T → reaction.

Definition perform (a : action) (st : EventLog) : EventLog :=
  match a with
  | DoSubscribe l => snd (subscribe l st)
  | DoSubscribeType ty l => snd (subscribeType ty l st)
  | DoUnsubscribe u => call_unsubscribe u st
  | DoClose => close st
  end.

(** [fn(entry)]: the state it leaves and whether it threw. *)
Definition invoke (fn : listener) (entry : EventLogEntry T) (st : EventLog)
    : EventLog * bool :=
  let r := body fn entry in
  (foldl (λ st a, perform a st) st (calls r), threw r).

(** The [Set] a [for ... of] loop runs over. *)
Definition slots (r : setref) (st : EventLog) : JS.Set_ listener :=
  match r with
  | Listeners => st_listeners st
  | TypeSet set => default [] (st_sets st !! set)
  end.

(** The [Set] registered for the type [ty], empty when there is none. *)
Definition typeSet_of (ty : string) (st : EventLog) : JS.Set_ listener :=
  match st_typeListeners st !! ty with
  | Some set => slots (TypeSet set) st
  | None => []
  end.

(** The listeners a record of type [ty] is for, in the order of
    delivery: those of the global set, then those of the set of [ty]. *)
Definition registered (ty : string) (st : EventLog) : list listener :=
  JS.members (st_listeners st) ++ JS.members (typeSet_of ty st).

(** [f] is in no set that [append] would run over. *)
Definition unregistered (f : listener) (st : EventLog) : Prop :=
  (Some f ∉ st_listeners st) ∧
  (∀ ty set, st_typeListeners st !! ty = Some set → Some f ∉ slots (TypeSet set) st).

(** [for (const fn of set) { try { fn(entry) } catch { } }] from slot
    [index] on.  The iterator reads the slots of the live set at each
    step: it passes over an emptied slot and reaches a slot added
    meanwhile.  [got] lists the listeners called so far.  The loop need
    not end, [None] is a run that outlasts [fuel] calls. *)
Fixpoint fan_out (fuel : nat) (entry : EventLogEntry T) (r : setref)
    (index : nat) (st : EventLog) (got : list listener)
    : option (EventLog * list listener) :=
  match slots r st !! index with
  | None => Some (st, got)
  | Some slot =>
      match fuel with
      | O => None
      | S fuel =>
          match slot with
          | None => fan_out fuel entry r (S index) st got
          | Some fn =>
              let '(st, _) := invoke fn entry st in
              fan_out fuel entry r (S index) st (got ++ [fn])
          end
      end
  end.

(** What a listener may call during a fan-out without keeping the record
    from a listener that is still to be called: it may subscribe a listener
    that calls nothing on the log, and it may unsubscribe a listener of
    [called], the listeners already called and itself, though not with a
    function that [subscribeType] returned for the type [ty] and for
    another set than [tSet], the one of [ty] when the fan-out began. *)
Definition harmless (ty : string) (tSet : option nat) (entry : EventLogEntry T)
    (called : list listener) (a : action) : Prop :=
  match a with
  | DoSubscribe l | DoSubscribeType _ l => calls (body l entry) = []
  | DoUnsubscribe (UnsubListener l) => l ∈ called
  | DoUnsubscribe (UnsubTypeListener set ty' l) => l ∈ called ∧ (ty' = ty → tSet = Some set)
  | DoClose => False
  end.

(** The number of calls on the log that the members of [s] make. *)
Definition weight (entry : EventLogEntry T) (s : JS.Set_ listener) : nat :=
  sum_list ((λ fn, length (calls (body fn entry))) <$> JS.members s).

(** How far a loop over a set has come: [s0] is the set when the fan-out
    began, [cur] the set now, [index] the next slot, [got] the listeners
    called.  A member of [s0] has been called or is still in its slot
    ahead; a member of [cur] is one of [s0], in its slot, or calls nothing
    on the log. *)
Definition tracks (entry : EventLogEntry T) (got : list listener) (index : nat)
    (s0 cur : JS.Set_ listener) : Prop :=
  (∀ j l, s0 !! j = Some (Some l) →
          l ∈ got ∨ ((index ≤ j)%nat ∧ cur !! j = Some (Some l))) ∧
  (∀ j l, cur !! j = Some (Some l) →
          s0 !! j = Some (Some l) ∨ calls (body l entry) = []).

(** What one harmless action does to a set. *)
Definition slot_step (entry : EventLogEntry T) (called : list listener)
    (s s' : JS.Set_ listener) : Prop :=
  s' = s ∨
  (∃ l, calls (body l entry) = [] ∧ s' = JS.add l s) ∨
  (∃ l, l ∈ called ∧ s' = JS.delete l s).

(** The set of the type [ty] while the global set is run over: it is still
    the set [t0] of the beginning, tracked from its first slot, or its
    members of the beginning have all been called and it holds only
    listeners that call nothing on the log. *)
Definition type_side (ty : string) (tSet : option nat) (t0 : JS.Set_ listener)
    (entry : EventLogEntry T) (got : list listener) (st : EventLog) : Prop :=
  (∃ set, tSet = Some set ∧ st_typeListeners st !! ty = Some set ∧
          tracks entry got 0 t0 (slots (TypeSet set) st)) ∨
  ((∀ l, l ∈ JS.members t0 → l ∈ got) ∧
   (∀ l, l ∈ JS.members (typeSet_of ty st) → calls (body l entry) = [])).

(** [appendFile(logPath, data, 'utf-8')] *)
Definition appendFile (fault : option WriteFault) (file : option string)
    (data : string) : throws unit * option string :=
  match fault with
  | Some f =>
      (inl (wf_error f),
       match wf_written f with
       | O => file
       | n => Some (default "" file +:+ String.substring 0 n data)
       end)
  | None => (inr (), Some (default "" file +:+ data))
  end.

Record Appended := {
  returned : throws (EventLogEntry T);
  log_after : EventLog;
  file_after : option string;
  notified : list listener;
}.

(** [now] is the value of [Date.now()].  [seq += 1] is the addition of
    [Z], which is that of a [number] as long as the counter is a safe
    integer. *)
Definition append (fuel : nat) (now : Z) (fault : option WriteFault)
    (ty : string) (p : T) (st : EventLog) (file : option string)
    : option Appended :=
  let st := with_seq (st_seq st + 1) st in
  let entry := {| seq := st_seq st; ts := now; type := ty; payload := p |} in
  match JSON_stringify entry with
  | inl err => Some {| returned := inl err; log_after := st;
                       file_after := file; notified := [] |}
  | inr json =>
      let line := json +:+ JS.newline in
      match appendFile fault file line with
      | (inl err, file) =>
          Some {| returned := inl err; log_after := st;
                  file_after := file; notified := [] |}
      | (inr _, file) =>
          '(st, got) ← fan_out fuel entry Listeners 0 st [];
          match st_typeListeners st !! ty with
          | None => Some {| returned := inr entry; log_after := st;
                            file_after := file; notified := got |}
          | Some tSet =>
              '(st, got) ← fan_out fuel entry (TypeSet tSet) 0 st got;
              Some {| returned := inr entry; log_after := st;
                      file_after := file; notified := got |}
          end
      end
  end.

(** One call of [append], with what the clock and the file system do
    during it. *)
Record Call := {
  call_type : string;
  call_payload : T;
  call_now : Z;
  call_fault : option WriteFault;
}.

(** What the owner of the log does next: a call of [append], awaited,
    or one of the other calls. *)
Inductive operation :=
| Append (c : Call)
| Other (a : action).

(** Operations done one after the other: the results of the calls of
    [append], in order, the state and the file at the end. *)
Fixpoint run (fuel : nat) (ops : list operation) (st : EventLog)
    (file : option string) : option (list Appended * EventLog * option string) :=
  match ops with
  | [] => Some ([], st, file)
  | Append c :: ops =>
      r ← append fuel (call_now c) (call_fault c) (call_type c) (call_payload c) st file;
      '(rs, st, file) ← run fuel ops (log_after r) (file_after r);
      Some (r :: rs, st, file)
  | Other a :: ops => run fuel ops (perform a st) file
  end.

Definition succeeded (r : Appended) : Prop :=
  match returned r with inr _ => True | inl _ => False end.

(** The line written for [entry] is one line with visible text, and
    [JSON_parse] finds the [seq] of [entry] in it. *)
Definition reads_back (entry : EventLogEntry T) : Prop :=
  ∃ json entry',
    JSON_stringify entry = inr json ∧
    JS.split_nl json = [json] ∧
    JS.trim json ≠ EmptyString ∧
    JSON_parse (JS.trim json) = Some entry' ∧
    seq entry' = seq entry.

End Codec.

(** ** The claims' words, as definitions to compare the code with *)

Section Spec.

Context {T : Type}.
Variable JSON_parse : string → option (EventLogEntry T).

(** Recovery, as described: the lines from the last one to the first one;
    an empty line is passed over, the first line that decodes gives its
    [seq], a line that does not decode is passed over; [0] when none
    decodes. *)
Fixpoint scan_for_seq (lines_from_last : list string) : Z :=
  match lines_from_last with
  | [] => 0
  | line :: earlier =>
      if JS.falsy (JS.trim line) then scan_for_seq earlier
      else match JSON_parse (JS.trim line) with
           | Some entry => seq entry
           | None => scan_for_seq earlier
           end
  end.

Definition recovery_as_described (file : option string) : Z :=
  match file with
  | None => 0
  | Some raw => scan_for_seq (reverse (JS.split_nl raw))
  end.

(** Read, as described: the entry a line of the file holds, if any. *)
Definition decodable (line : string) : option (EventLogEntry T) :=
  if JS.falsy (JS.trim line) then None else JSON_parse line.

(** The entries of the file, in the order of its lines. *)
Definition entries_of (raw : string) : list (EventLogEntry T) :=
  omap decodable (JS.split_nl raw).

(** [seq] strictly greater than [afterSeq] and, when a type is given,
    exactly that type. *)
Definition eligible (afterSeq : Z) (ty : option string) (entry : EventLogEntry T) : bool :=
  bool_decide (afterSeq < seq entry) &&
  match ty with
  | None => true
  | Some t => bool_decide (type entry = t)
  end.

(** The two tests of the loop of [read] that an entry has to pass. *)
Definition passes (afterSeq : Z) (filterType : option string)
    (entry : EventLogEntry T) : bool :=
  negb (bool_decide (seq entry ≤ afterSeq)) && negb (type_mismatch filterType entry).

Definition first_n (limit : option Z) (l : list (EventLogEntry T)) : list (EventLogEntry T) :=
  match limit with
  | None => l
  | Some n => take (Z.to_nat n) l
  end.

Definition read_as_described (file : option string) (readOpts : ReadOpts)
    : list (EventLogEntry T) :=
  match file with
  | None => []
  | Some raw =>
      first_n (opt_limit readOpts)
        (filter (λ e, eligible (default 0 (opt_afterSeq readOpts)) (opt_type readOpts) e = true)
           (entries_of raw))
  end.

End Spec.

(** ** A codec to run the log with

    The part of JSON that [append] writes, for payloads that are [null], an
    integer or a string: [stringify] prints an entry the way
    [JSON.stringify] does, [parse] reads such a line back the way
    [JSON.parse] does and fails on text that is not JSON.  It is used to
    run the operations on concrete files. *)

Module MiniJSON.

Inductive value :=
| Null
| Num (n : Z)
| Str (s : string).

Definition dquote : ascii := "034"%char.
Definition backslash : ascii := "092"%char.

Definition hex_digit (n : N) : ascii :=
  ascii_of_N (if (n <? 10)%N then 48 + n else 87 + n).

(** The characters of a string literal. *)
Fixpoint quote_chars (s : string) : string :=
  match s with
  | EmptyString => EmptyString
  | String c r =>
      let n := N_of_ascii c in
      let esc (e : ascii) := String backslash (String e (quote_chars r)) in
      if bool_decide (c = dquote) then esc dquote
      else if bool_decide (c = backslash) then esc backslash
      else if bool_decide (n = 8%N) then esc "b"%char
      else if bool_decide (n = 9%N) then esc "t"%char
      else if bool_decide (n = 10%N) then esc "n"%char
      else if bool_decide (n = 12%N) then esc "f"%char
      else if bool_decide (n = 13%N) then esc "r"%char
      else if (n <? 32)%N then
        String backslash
          ("u00" +:+ String (hex_digit (n / 16)) (String (hex_digit (n mod 16)) (quote_chars r)))
      else String c (quote_chars r)
  end.

Definition quote (s : string) : string :=
  String dquote (quote_chars s +:+ String dquote EmptyString).

Definition print_value (v : value) : string :=
  match v with
  | Null => "null"
  | Num n => pretty n
  | Str s => quote s
  end.

Definition stringify (entry : EventLogEntry value) : throws string :=
  inr ("{" +:+ quote "seq" +:+ ":" +:+ pretty (seq entry) +:+
       "," +:+ quote "ts" +:+ ":" +:+ pretty (ts entry) +:+
       "," +:+ quote "type" +:+ ":" +:+ quote (type entry) +:+
       "," +:+ quote "payload" +:+ ":" +:+ print_value (payload entry) +:+ "}").

(** Parsers take the text and give the value read and the text left. *)
Definition parser (A : Type) : Type := string → option (A * string).

Fixpoint expect (prefix : string) : parser unit :=
  λ s,
    match prefix with
    | EmptyString => Some ((), s)
    | String p prefix =>
        match s with
        | String c r => if bool_decide (c = p) then expect prefix r else None
        | EmptyString => None
        end
    end.

Definition digit (c : ascii) : option Z :=
  let n := Z.of_N (N_of_ascii c) in
  if bool_decide (48 ≤ n ≤ 57) then Some (n - 48) else None.

(** The digits at the head of the text, as the number they spell after
    [acc]. *)
Fixpoint digits (acc : Z) (s : string) : Z * string :=
  match s with
  | String c r =>
      match digit c with
      | Some d => digits (10 * acc + d) r
      | None => (acc, s)
      end
  | EmptyString => (acc, s)
  end.

(** [0], or a digit other than [0] followed by digits. *)
Definition natural : parser Z :=
  λ s,
    match s with
    | String c r =>
        match digit c with
        | Some 0 => Some (0, r)
        | Some d => Some (digits d r)
        | None => None
        end
    | EmptyString => None
    end.

Definition integer : parser Z :=
  λ s,
    match s with
    | String "-"%char r =>
        match natural r with
        | Some (n, r) => Some (- n, r)
        | None => None
        end
    | _ => natural s
    end.

Definition hex_value (c : ascii) : option N :=
  let n := N_of_ascii c in
  if bool_decide (48 ≤ n ≤ 57)%N then Some (n - 48)%N
  else if bool_decide (97 ≤ n ≤ 102)%N then Some (n - 87)%N
  else if bool_decide (65 ≤ n ≤ 70)%N then Some (n - 55)%N
  else None.

(** The characters of a string literal up to its closing quote. *)
Fixpoint unquote_chars (fuel : nat) : parser string :=
  λ s,
    match fuel with
    | O => None
    | S fuel =>
        match s with
        | EmptyString => None
        | String c r =>
            if bool_decide (c = dquote) then Some (EmptyString, r)
            else if bool_decide (c = backslash) then
              match r with
              | String e r =>
                  let plain (x : ascii) :=
                    match unquote_chars fuel r with
                    | Some (t, r) => Some (String x t, r)
                    | None => None
                    end in
                  match e with
                  | "034"%char => plain dquote
                  | "092"%char => plain backslash
                  | "/"%char => plain "/"%char
                  | "b"%char => plain "008"%char
                  | "t"%char => plain "009"%char
                  | "n"%char => plain "010"%char
                  | "f"%char => plain "012"%char
                  | "r"%char => plain "013"%char
                  | "u"%char =>
                      match r with
                      | String h1 (String h2 (String h3 (String h4 r))) =>
                          match hex_value h1, hex_value h2, hex_value h3, hex_value h4 with
                          | Some 0%N, Some 0%N, Some a, Some b =>
                              match unquote_chars fuel r with
                              | Some (t, r) => Some (String (ascii_of_N (16 * a + b)) t, r)
                              | None => None
                              end
                          | _, _, _, _ => None
                          end
                      | _ => None
                      end
                  | _ => None
                  end
              | EmptyString => None
              end
            else if (N_of_ascii c <? 32)%N then None
            else match unquote_chars fuel r with
                 | Some (t, r) => Some (String c t, r)
                 | None => None
                 end
        end
    end.

Definition quoted : parser string :=
  λ s,
    match s with
    | String c r =>
        if bool_decide (c = dquote) then unquote_chars (String.length r) r else None
    | EmptyString => None
    end.

Definition parse_value : parser value :=
  λ s,
    match expect "null" s with
    | Some (_, r) => Some (Null, r)
    | None =>
        match quoted s with
        | Some (t, r) => Some (Str t, r)
        | None =>
            match integer s with
            | Some (n, r) => Some (Num n, r)
            | None => None
            end
        end
    end.

(** White space of JSON: space, tab, line feed, carriage return. *)
Fixpoint skip_ws (s : string) : string :=
  match s with
  | String c r =>
      if bool_decide (c = " "%char ∨ c = "009"%char ∨ c = "010"%char ∨ c = "013"%char)
      then skip_ws r else s
  | EmptyString => s
  end.

Definition parse (line : string) : option (EventLogEntry value) :=
  '(_, s) ← expect ("{" +:+ quote "seq" +:+ ":") (skip_ws line);
  '(n, s) ← integer s;
  '(_, s) ← expect ("," +:+ quote "ts" +:+ ":") s;
  '(t, s) ← integer s;
  '(_, s) ← expect ("," +:+ quote "type" +:+ ":") s;
  '(ty, s) ← quoted s;
  '(_, s) ← expect ("," +:+ quote "payload" +:+ ":") s;
  '(p, s) ← parse_value s;
  '(_, s) ← expect "}" s;
  match skip_ws s with
  | EmptyString => Some {| seq := n; ts := t; type := ty; payload := p |}
  | _ => None
  end.

(** The text [append] writes for an entry, and the line. *)
Definition json_of (entry : EventLogEntry value) : string :=
  match stringify entry with
  | inr json => json
  | inl _ => EmptyString
  end.

Definition line_of (entry : EventLogEntry value) : string :=
  json_of entry +:+ JS.newline.

Definition entry (n : Z) (ty : string) : EventLogEntry value :=
  {| seq := n; ts := 1700000000000 + n; type := ty; payload := Null |}.

(** Listeners that only look at the entry. *)
Definition quiet : listener → EventLogEntry value → reaction :=
  λ _ _, {| calls := []; threw := false |}.

(** Listener 1 throws, the others only look at the entry. *)
Definition one_throws : listener → EventLogEntry value → reaction :=
  λ l _, {| calls := []; threw := bool_decide (l = 1%nat) |}.

(** Listener 1 unsubscribes listener 2 from the global set. *)
Definition one_removes_two : listener → EventLogEntry value → reaction :=
  λ l _, {| calls := if bool_decide (l = 1%nat)
                     then [DoUnsubscribe (UnsubListener 2%nat)] else [];
            threw := false |}.

(** Listener 1 closes the log. *)
Definition one_closes : listener → EventLogEntry value → reaction :=
  λ l _, {| calls := if bool_decide (l = 1%nat) then [DoClose] else [];
            threw := false |}.

(** Every listener unsubscribes itself from the global set, then
    throws. *)
Definition each_removes_itself : listener → EventLogEntry value → reaction :=
  λ l _, {| calls := [DoUnsubscribe (UnsubListener l)]; threw := true |}.

(** A log just created over a missing file. *)
Definition fresh : EventLog :=
  {| st_seq := 0; st_listeners := []; st_sets := []; st_typeListeners := ∅ |}.

Definition call (ty : string) (n : Z) : Call (T := value) :=
  {| call_type := ty; call_payload := Null; call_now := 1700000000000 + n;
     call_fault := None |}.

(** Three records appended, with subscriptions made in between. *)
Definition three_appends : list (operation (T := value)) :=
  [Other (DoSubscribe 7%nat); Append (call "A" 1); Append (call "A" 2);
   Other (DoSubscribeType "B" 8%nat); Append (call "B" 3)].

(** Listeners 1 and 2 on every record, listener 3 on the type [A]. *)
Definition three_listeners : EventLog :=
  snd (subscribeType "A" 3%nat (snd (subscribe 2%nat (snd (subscribe 1%nat fresh))))).

Definition disk_full : WriteFault :=
  {| wf_error := {| code := Some "ENOSPC" |}; wf_written := 5 |}.

End MiniJSON.

(** ** Well-formed registries *)

(** Every set the map of [typeListeners] holds has been made, and no two
    types hold the same set. *)
Definition registry_wf (st : EventLog) : Prop :=
  (∀ ty set, st_typeListeners st !! ty = Some set → (set < length (st_sets st))%nat) ∧
  (∀ ty1 ty2 set, st_typeListeners st !! ty1 = Some set →
                  st_typeListeners st !! ty2 = Some set → ty1 = ty2).

(** ** The daily loss circuit breaker

    [circuit-breaker.ts].  The amounts (PnL, equity, fractions of equity)
    are JavaScript numbers that the class adds, compares, takes the absolute
    value of and divides: their type and these operations are parameters, and
    so are the texts of the two reasons, which the class formats from them.
    Times are epoch milliseconds, integers.  The clock [now] is a function
    called again and again: [clock k] is the value of its [k]-th call, and
    the state counts the calls made. *)

Module CircuitBreaker.

Section Breaker.

Context {num : Type}.

Variable zero : num.
Variable add : num → num → num.
(** [a < b] and [a >= b] *)
Variable lt : num → num → bool.
Variable ge : num → num → bool.
(** [Math.abs(a)] and [a / b] *)
Variable abs : num → num.
Variable div : num → num → num.
(** The value [0.05] of [DEFAULT_CONFIG]. *)
Variable five_percent : num.
(** The reason of a refusal during the cooldown, from
    [cooldownMs - elapsed], and the reason of a trip, from [lossPct] and
    [maxDailyLossPct]. *)
Variable cooldown_text : Z → string.
Variable loss_text : num → num → string.

Variable clock : nat → Z.

Record CircuitBreakerConfig := {
  maxDailyLossPct : num;
  cooldownMs : Z;
}.

Definition DEFAULT_CONFIG : CircuitBreakerConfig :=
  {| maxDailyLossPct := five_percent; cooldownMs := 24 * 60 * 60 * 1000 |}.

Record PnLEntry := {
  timestamp : Z;
  pnl : num;
}.

Record DailyLossCircuitBreaker := {
  config : CircuitBreakerConfig;
  pnlLog : list PnLEntry;
  trippedAt : option Z;
  ticks : nat;
}.

(** The result of [check]. *)
Record Verdict := {
  allowed : bool;
  reason : option string;
}.

(** [new DailyLossCircuitBreaker(config, now)] with the fields of [config]
    that are given. *)
Definition constructor (maxDailyLossPct' : option num) (cooldownMs' : option Z)
    : DailyLossCircuitBreaker :=
  {| config := {| maxDailyLossPct := default (maxDailyLossPct DEFAULT_CONFIG) maxDailyLossPct';
                  cooldownMs := default (cooldownMs DEFAULT_CONFIG) cooldownMs' |};
     pnlLog := [];
     trippedAt := None;
     ticks := 0 |}.

(** [this.now()] *)
Definition now (cb : DailyLossCircuitBreaker) : Z * DailyLossCircuitBreaker :=
  (clock (ticks cb),
   {| config := config cb; pnlLog := pnlLog cb; trippedAt := trippedAt cb;
      ticks := S (ticks cb) |}).

Definition with_pnlLog (l : list PnLEntry) (cb : DailyLossCircuitBreaker)
    : DailyLossCircuitBreaker :=
  {| config := config cb; pnlLog := l; trippedAt := trippedAt cb; ticks := ticks cb |}.

Definition with_trippedAt (t : option Z) (cb : DailyLossCircuitBreaker)
    : DailyLossCircuitBreaker :=
  {| config := config cb; pnlLog := pnlLog cb; trippedAt := t; ticks := ticks cb |}.

Definition pruneOldEntries (cb : DailyLossCircuitBreaker) : DailyLossCircuitBreaker :=
  let '(n, cb) := now cb in
  let cutoff := n - 24 * 60 * 60 * 1000 in
  with_pnlLog (filter (λ e, cutoff ≤ timestamp e) (pnlLog cb)) cb.

Definition recordPnL (pnl' : num) (cb : DailyLossCircuitBreaker)
    : DailyLossCircuitBreaker :=
  let '(n, cb) := now cb in
  let cb := with_pnlLog (pnlLog cb ++ [{| timestamp := n; pnl := pnl' |}]) cb in
  pruneOldEntries cb.

(** [this.pnlLog.reduce((sum, e) => sum + e.pnl, 0)] *)
Definition total (l : list PnLEntry) : num :=
  foldl (λ sum e, add sum (pnl e)) zero l.

Definition check (currentEquity : num) (cb : DailyLossCircuitBreaker)
    : Verdict * DailyLossCircuitBreaker :=
  let cooling :=
    match trippedAt cb with
    | Some t =>
        let '(n, cb) := now cb in
        let elapsed := n - t in
        if bool_decide (elapsed < cooldownMs (config cb))
        then inl ({| allowed := false;
                     reason := Some (cooldown_text (cooldownMs (config cb) - elapsed)) |},
                  cb)
        else inr (with_trippedAt None cb)
    | None => inr cb
    end in
  match cooling with
  | inl refused => refused
  | inr cb =>
      let cb := pruneOldEntries cb in
      let totalPnL := total (pnlLog cb) in
      if lt zero currentEquity && lt totalPnL zero then
        let lossPct := div (abs totalPnL) currentEquity in
        if ge lossPct (maxDailyLossPct (config cb)) then
          let '(n, cb) := now cb in
          ({| allowed := false;
              reason := Some (loss_text lossPct (maxDailyLossPct (config cb))) |},
           with_trippedAt (Some n) cb)
        else ({| allowed := true; reason := None |}, cb)
      else ({| allowed := true; reason := None |}, cb)
  end.

(** The getter [rollingPnL]. *)
Definition rollingPnL (cb : DailyLossCircuitBreaker) : num * DailyLossCircuitBreaker :=
  let cb := pruneOldEntries cb in
  (total (pnlLog cb), cb).

(** The getter [isTripped]. *)
Definition isTripped (cb : DailyLossCircuitBreaker) : bool * DailyLossCircuitBreaker :=
  match trippedAt cb with
  | None => (false, cb)
  | Some t =>
      let '(n, cb) := now cb in
      (bool_decide (n - t < cooldownMs (config cb)), cb)
  end.

(** What a user of the breaker does next. *)
Inductive use :=
| RecordPnL (pnl' : num)
| Check (currentEquity : num)
| RollingPnL
| IsTripped.

Definition step (u : use) (cb : DailyLossCircuitBreaker) : DailyLossCircuitBreaker :=
  match u with
  | RecordPnL p => recordPnL p cb
  | Check e => snd (check e cb)
  | RollingPnL => snd (rollingPnL cb)
  | IsTripped => snd (isTripped cb)
  end.

Definition steps (us : list use) (cb : DailyLossCircuitBreaker) : DailyLossCircuitBreaker :=
  foldl (λ cb u, step u cb) cb us.

(** The PnL events recorded by [us], with the time each one got, when the
    first call of the clock is the [k]-th. *)
Fixpoint recorded (us : list use) (cb : DailyLossCircuitBreaker) : list PnLEntry :=
  match us with
  | [] => []
  | u :: us =>
      match u with
      | RecordPnL p => [{| timestamp := clock (ticks cb); pnl := p |}]
      | _ => []
      end ++ recorded us (step u cb)
  end.

End Breaker.

(** The breaker over exact fractions, with a clock that stands still at
    [t] for the first [k] calls and is [later] afterwards. *)
Definition Qlt_bool (a b : QArith_base.Q) : bool := negb (QArith_base.Qle_bool b a).

Definition exact_check (clock : nat → Z) :=
  check (QArith_base.Qmake 0 1) QArith_base.Qplus Qlt_bool
    (λ a b, QArith_base.Qle_bool b a) Qabs.Qabs QArith_base.Qdiv
    (λ _, "cooldown") (λ _ _, "loss") clock.

Definition exact_recordPnL (clock : nat → Z) :=
  recordPnL (num := QArith_base.Q) clock.

Definition exact_new : DailyLossCircuitBreaker (num := QArith_base.Q) :=
  constructor (QArith_base.Qmake 5 100) None None.

Definition exact_isTripped (clock : nat → Z) :=
  isTripped (num := QArith_base.Q) clock.

Definition exact_rollingPnL (clock : nat → Z) :=
  rollingPnL (QArith_base.Qmake 0 1) QArith_base.Qplus clock.

Definition exact_total := total (QArith_base.Qmake 0 1) QArith_base.Qplus.

Definition exact_steps (clock : nat → Z) :=
  steps (QArith_base.Qmake 0 1) QArith_base.Qplus Qlt_bool
    (λ a b, QArith_base.Qle_bool b a) Qabs.Qabs QArith_base.Qdiv
    (λ _, "cooldown") (λ _ _, "loss") clock.

Definition exact_recorded (clock : nat → Z) :=
  recorded (QArith_base.Qmake 0 1) QArith_base.Qplus Qlt_bool
    (λ a b, QArith_base.Qle_bool b a) Qabs.Qabs QArith_base.Qdiv
    (λ _, "cooldown") (λ _ _, "loss") clock.

(** An amount in whole units. *)
Definition units (n : Z) : QArith_base.Q := QArith_base.Qmake n 1.

Definition two_instants (k : nat) (t later : Z) : nat → Z :=
  λ i, if bool_decide (i < k)%nat then t else later.

End CircuitBreaker.

(** ** The execution metrics collector

    [execution-metrics.ts], the part that keeps the metrics and the file:
    [record], [load], [persist] and [raw].  An [OrderMetric] is a value of
    the type [M]; [JSON.parse], typed by the cast of the source, and
    [JSON.stringify] are parameters as for the event log. *)

Module ExecutionMetrics.

Section Collector.

Context {M : Type}.
Variable JSON_parse : string → option M.
Variable JSON_stringify : M → throws string.

Record ExecutionMetricsCollector := {
  metrics : list M;
  dirty : bool;
}.

Definition new : ExecutionMetricsCollector := {| metrics := []; dirty := false |}.

(** [strings.join('\n')] *)
Fixpoint join_nl (l : list string) : string :=
  match l with
  | [] => EmptyString
  | [s] => s
  | s :: rest => s +:+ JS.newline +:+ join_nl rest
  end.

(** [lines.map(l => JSON.parse(l))], which throws with the first line that
    does not parse. *)
Fixpoint parse_all (lines : list string) : option (list M) :=
  match lines with
  | [] => Some []
  | l :: rest =>
      match JSON_parse l with
      | None => None
      | Some m =>
          match parse_all rest with
          | None => None
          | Some ms => Some (m :: ms)
          end
      end
  end.

(** [this.metrics.map(m => JSON.stringify(m))] *)
Fixpoint stringify_all (ms : list M) : throws (list string) :=
  match ms with
  | [] => inr []
  | m :: rest =>
      match JSON_stringify m with
      | inl err => inl err
      | inr json =>
          match stringify_all rest with
          | inl err => inl err
          | inr jsons => inr (json :: jsons)
          end
      end
  end.

Definition load (fault : option Error) (file : option string)
    (c : ExecutionMetricsCollector) : ExecutionMetricsCollector :=
  let loaded :=
    match readFile fault file with
    | inl _ => None
    | inr raw =>
        let lines := filter (λ l, JS.falsy l = false) (JS.split_nl (JS.trim raw)) in
        parse_all lines
    end in
  {| metrics := default [] loaded; dirty := dirty c |}.

(** A failed [writeFile]: what it left of the file. *)
Record WriteFileFault := { left_behind : option string }.

(** The private [persist], awaited. *)
Definition persist (mkdir_fault : option Error) (fault : option WriteFileFault)
    (c : ExecutionMetricsCollector) (file : option string)
    : ExecutionMetricsCollector * option string :=
  if negb (dirty c) then (c, file)
  else
    match mkdir_fault with
    | Some _ => (c, file)
    | None =>
        match stringify_all (metrics c) with
        | inl _ => (c, file)
        | inr jsons =>
            let content := join_nl jsons +:+ JS.newline in
            match fault with
            | Some f => (c, left_behind f)
            | None => ({| metrics := metrics c; dirty := false |}, Some content)
            end
        end
    end.

(** What [record] does before it returns; the [persist] it starts runs
    later. *)
Definition record (metric : M) (c : ExecutionMetricsCollector)
    : ExecutionMetricsCollector :=
  {| metrics := metrics c ++ [metric]; dirty := true |}.

Definition raw (c : ExecutionMetricsCollector) : list M := metrics c.

(** The text written for [m] is one line that starts and ends with a
    character that is not white space, and [JSON_parse] reads [m] back
    from it. *)
Definition reads_back (m : M) : Prop :=
  ∃ json c rest,
    JSON_stringify m = inr json ∧
    json = String c rest ∧
    JS.isWhiteSpace c = false ∧
    JS.trimEnd json = json ∧
    JS.split_nl json = [json] ∧
    JSON_parse json = Some m.

End Collector.

End ExecutionMetrics.

(** ** Facts on strings *)

Section StringFacts.

Implicit Types (s r : string) (c : ascii).

Lemma trimEnd_cons c r :
  JS.trimEnd (String c r) =
    match JS.trimEnd r with
    | EmptyString => if JS.isWhiteSpace c then EmptyString else String c EmptyString
    | r' => String c r'
    end.
Proof. reflexivity. Qed.

Lemma trimEnd_idemp s : JS.trimEnd (JS.trimEnd s) = JS.trimEnd s.
Proof.
  induction s as [|c r IH]; [done|].
  rewrite trimEnd_cons. destruct (JS.trimEnd r) as [|c' r'] eqn:E.
  - destruct (JS.isWhiteSpace c) eqn:W; [done|].
    rewrite trimEnd_cons. simpl. by rewrite W.
  - rewrite trimEnd_cons, IH. done.
Qed.

(** A string trimmed at its end is empty or ends with a character that
    is not white space; so it is all white space only when empty. *)
Lemma trimStart_trimEnd_empty s :
  JS.trimStart (JS.trimEnd s) = EmptyString → JS.trimEnd s = EmptyString.
Proof.
  induction s as [|c r IH]; [done|].
  rewrite trimEnd_cons. destruct (JS.trimEnd r) as [|c' r'] eqn:E.
  - destruct (JS.isWhiteSpace c) eqn:W; [done|]. simpl. by rewrite W.
  - simpl. destruct (JS.isWhiteSpace c); [|done]. intros H. by apply IH in H.
Qed.

Lemma trim_empty_iff s : JS.trim s = EmptyString ↔ JS.trimEnd s = EmptyString.
Proof.
  split; [apply trimStart_trimEnd_empty|]. unfold JS.trim. by intros ->.
Qed.

Lemma trim_trimEnd s : JS.trim (JS.trimEnd s) = JS.trim s.
Proof. unfold JS.trim. by rewrite trimEnd_idemp. Qed.

Lemma falsy_true s : JS.falsy s = true ↔ s = EmptyString.
Proof. by destruct s. Qed.

Lemma falsy_false s : JS.falsy s = false ↔ s ≠ EmptyString.
Proof. by destruct s. Qed.

Lemma split_nl_nonempty s : JS.split_nl s ≠ [].
Proof.
  induction s as [|c r IH]; [done|]. simpl.
  destruct (JS.isNewline c); [done|]. by destruct (JS.split_nl r).
Qed.

Lemma split_nl_cons c r :
  JS.split_nl (String c r) =
    if JS.isNewline c then EmptyString :: JS.split_nl r
    else match JS.split_nl r with
         | h :: t => String c h :: t
         | [] => [String c EmptyString]
         end.
Proof. reflexivity. Qed.

Lemma split_nl_singleton s x : JS.split_nl s = [x] → s = x.
Proof.
  revert x. induction s as [|c r IH]; intros x; [by intros [= <-]|].
  rewrite split_nl_cons. destruct (JS.isNewline c).
  - intros [= <- H]. by destruct (split_nl_nonempty r).
  - destruct (JS.split_nl r) as [|h t] eqn:E; [by destruct (split_nl_nonempty r)|].
    intros [= <- ->]. by rewrite (IH h).
Qed.

Lemma isNewline_spec c : JS.isNewline c = true ↔ c = "010"%char.
Proof.
  split; [|by intros ->].
  destruct c as [[] [] [] [] [] [] [] []]; simpl; congruence.
Qed.

Lemma newline_isWhiteSpace c : JS.isNewline c = true → JS.isWhiteSpace c = true.
Proof. by intros ->%isNewline_spec. Qed.

(** Splitting at a line break. *)
Lemma split_nl_app a b :
  JS.split_nl (a +:+ JS.newline +:+ b) = JS.split_nl a ++ JS.split_nl b.
Proof.
  induction a as [|c r IH]; [done|].
  change (String c r +:+ JS.newline +:+ b) with (String c (r +:+ JS.newline +:+ b)).
  rewrite !split_nl_cons, IH. destruct (JS.isNewline c); [done|].
  destruct (JS.split_nl r) as [|h t] eqn:E; [by destruct (split_nl_nonempty r)|done].
Qed.

End StringFacts.

Section SplitTrimEnd.

(** Trimming the end of the content before splitting it changes the lines
    as follows: the lines after the last one with visible text go, and
    that line loses the white space at its end. *)
Lemma split_nl_trimEnd (raw : string) :
  ∃ init l blanks,
    JS.split_nl raw = init ++ l :: blanks ∧
    JS.split_nl (JS.trimEnd raw) = init ++ [JS.trimEnd l] ∧
    Forall (λ b, JS.trimEnd b = EmptyString) blanks.
Proof.
  induction raw as [|c r (init & l & blanks & Hr & Ht & Hb)].
  { by exists [], EmptyString, []. }
  destruct (JS.isNewline c) eqn:Hnl.
  - destruct (JS.trimEnd r) as [|c' r'] eqn:E.
    + destruct init as [|i0 init]; [|by destruct init].
      injection Ht as Ht.
      exists [], EmptyString, (l :: blanks).
      rewrite trimEnd_cons, split_nl_cons, E, Hnl, (newline_isWhiteSpace _ Hnl), Hr.
      repeat split; auto.
    + exists (EmptyString :: init), l, blanks.
      rewrite trimEnd_cons, split_nl_cons, E, Hnl, split_nl_cons, Hnl, Hr, Ht. done.
  - destruct (JS.trimEnd r) as [|c' r'] eqn:E.
    + destruct init as [|i0 init]; [|by destruct init].
      injection Ht as Ht.
      exists [], (String c l), blanks.
      rewrite !trimEnd_cons, split_nl_cons, E, Hnl, Hr, <- Ht.
      destruct (JS.isWhiteSpace c); simpl; rewrite ?Hnl; done.
    + destruct init as [|i0 init].
      * exists [], (String c l), blanks.
        rewrite !trimEnd_cons, split_nl_cons, E, Hnl, split_nl_cons, Hnl, Hr, Ht.
        apply split_nl_singleton in Ht. rewrite <- Ht. done.
      * exists (String c i0 :: init), l, blanks.
        rewrite !trimEnd_cons, split_nl_cons, E, Hnl, split_nl_cons, Hnl, Hr, Ht. done.
Qed.

End SplitTrimEnd.

(** ** Recovery *)

Section Recovery.

Context {T : Type}.
Variable JSON_parse : string → option (EventLogEntry T).

Local Abbreviation scan := (scan_for_seq JSON_parse).

(** The loop that counts down is the scan of the lines taken from the
    last one. *)
Lemma recover_loop_scan (lines : list string) (n : nat) :
  (n ≤ length lines)%nat →
  recover_loop JSON_parse lines n = inr (scan (reverse (take n lines))).
Proof.
  induction n as [|i IH]; intros Hn; [done|].
  destruct (lookup_lt_is_Some_2 lines i) as [l Hl]; [lia|].
  rewrite (take_S_r _ _ _ Hl), reverse_snoc. simpl. rewrite Hl.
  destruct (JS.falsy (JS.trim l)); [apply IH; lia|].
  destruct (JSON_parse (JS.trim l)); [done|apply IH; lia].
Qed.

Lemma scan_blanks (blanks rest : list string) :
  Forall (λ b, JS.trimEnd b = EmptyString) blanks →
  scan (blanks ++ rest) = scan rest.
Proof.
  induction 1 as [|b blanks Hb _ IH]; [done|]. simpl.
  unfold JS.trim at 1. by rewrite Hb.
Qed.

Lemma scan_trimEnd (l : string) (rest : list string) :
  scan (JS.trimEnd l :: rest) = scan (l :: rest).
Proof. simpl. by rewrite trim_trimEnd. Qed.

(** Whether the end of the content is trimmed before it is split makes
    no difference to the scan. *)
Lemma scan_split_trimEnd (raw : string) :
  scan (reverse (JS.split_nl (JS.trimEnd raw))) = scan (reverse (JS.split_nl raw)).
Proof.
  destruct (split_nl_trimEnd raw) as (init & l & blanks & -> & -> & Hb).
  rewrite reverse_snoc, reverse_app, reverse_cons, <- app_assoc.
  rewrite scan_blanks by by apply Forall_reverse.
  simpl ([l] ++ _). apply scan_trimEnd.
Qed.

(** Content that is all white space holds no record. *)
Lemma scan_all_white (raw : string) :
  JS.trim raw = EmptyString → scan (reverse (JS.split_nl raw)) = 0.
Proof.
  intros E%trim_empty_iff. by rewrite <- scan_split_trimEnd, E.
Qed.

Lemma recoverLastSeq_scan (raw : string) :
  recoverLastSeq JSON_parse None (Some raw) = inr (scan (reverse (JS.split_nl raw))).
Proof.
  unfold recoverLastSeq. simpl.
  destruct (JS.falsy (JS.trim raw)) eqn:E.
  - apply falsy_true in E. by rewrite scan_all_white.
  - rewrite recover_loop_scan by done. by rewrite firstn_all, scan_split_trimEnd.
Qed.

(** Lines that are blank or do not decode, met first, are passed over. *)
Lemma scan_junk (junk rest : list string) :
  Forall (λ l, JS.trim l = EmptyString ∨ JSON_parse (JS.trim l) = None) junk →
  scan (junk ++ rest) = scan rest.
Proof.
  induction 1 as [|l junk Hl _ IH]; [done|]. simpl.
  destruct Hl as [-> | ->]; [done|]. by destruct (JS.falsy _).
Qed.

Lemma string_app_assoc (a b c : string) : (a +:+ b) +:+ c = a +:+ b +:+ c.
Proof.
  induction a as [|x a IH]; [done|].
  change ((String x a +:+ b) +:+ c) with (String x ((a +:+ b) +:+ c)).
  change (String x a +:+ b +:+ c) with (String x (a +:+ b +:+ c)).
  by rewrite IH.
Qed.

(** A record on a line of its own, with only blank lines or lines that
    do not decode after it, is the one recovery finds. *)
Lemma recover_record_then_junk (before good junk : string) (entry : EventLogEntry T) :
  before = EmptyString ∨ (∃ b, before = b +:+ JS.newline) →
  JS.split_nl good = [good] →
  JS.trim good ≠ EmptyString →
  JSON_parse (JS.trim good) = Some entry →
  Forall (λ l, JS.trim l = EmptyString ∨ JSON_parse (JS.trim l) = None)
         (JS.split_nl junk) →
  recoverLastSeq JSON_parse None (Some (before +:+ good +:+ JS.newline +:+ junk))
  = inr (seq entry).
Proof.
  intros Hbefore Hgood Hvisible Hparse Hjunk.
  rewrite recoverLastSeq_scan.
  assert (∃ earlier, JS.split_nl (before +:+ good +:+ JS.newline +:+ junk)
                     = earlier ++ good :: JS.split_nl junk) as [earlier ->].
  { destruct Hbefore as [-> | [b ->]].
    - exists []. change (EmptyString +:+ ?s) with s. by rewrite split_nl_app, Hgood.
    - exists (JS.split_nl b).
      by rewrite string_app_assoc, !split_nl_app, Hgood. }
  rewrite reverse_app, reverse_cons, <- !app_assoc.
  rewrite scan_junk by by apply Forall_reverse.
  simpl. apply falsy_false in Hvisible. by rewrite Hvisible, Hparse.
Qed.

(** C2. Recovery at open: for every content of the file, the recovered
    counter is the one of the scan described (the lines from the last to
    the first, empty ones passed over, the [seq] of the first line that
    decodes, [0] when none does or when the file is empty or missing); a
    read error other than the one of a missing file is the only way to
    fail; and a record followed by lines that do not decode is recovered. *)
Theorem recoverLastSeq_as_described :
  (∀ file, recoverLastSeq JSON_parse None file
           = inr (recovery_as_described JSON_parse file)) ∧
  (∀ err file, recoverLastSeq JSON_parse (Some err) file
               = if isENOENT err then inr 0 else inl err) ∧
  recoverLastSeq JSON_parse None None = inr 0 ∧
  recoverLastSeq JSON_parse None (Some EmptyString) = inr 0 ∧
  (∀ raw, Forall (λ l, JS.trim l = EmptyString ∨ JSON_parse (JS.trim l) = None)
                 (JS.split_nl raw) →
          recoverLastSeq JSON_parse None (Some raw) = inr 0) ∧
  (∀ before good junk entry,
      before = EmptyString ∨ (∃ b, before = b +:+ JS.newline) →
      JS.split_nl good = [good] →
      JS.trim good ≠ EmptyString →
      JSON_parse (JS.trim good) = Some entry →
      Forall (λ l, JS.trim l = EmptyString ∨ JSON_parse (JS.trim l) = None)
             (JS.split_nl junk) →
      recoverLastSeq JSON_parse None (Some (before +:+ good +:+ JS.newline +:+ junk))
      = inr (seq entry)).
Proof.
  split_and!.
  - intros [raw|]; [apply recoverLastSeq_scan|done].
  - done.
  - done.
  - done.
  - intros raw Hjunk. rewrite recoverLastSeq_scan.
    rewrite <- (app_nil_r (reverse _)), scan_junk; [done|by apply Forall_reverse].
  - apply recover_record_then_junk.
Qed.

End Recovery.

(** ** Read *)

Section Read.

Context {T : Type}.
Variable JSON_parse : string → option (EventLogEntry T).

Implicit Types (lines : list string) (results : list (EventLogEntry T)).

Local Abbreviation kept a ft lines :=
  (filter (λ e, passes a ft e = true) (omap (decodable JSON_parse) lines)).

(** One step of the loop, by what the line holds. *)
Lemma read_loop_skip a limit ft line lines results :
  match decodable JSON_parse line with
  | Some e => passes a ft e = false
  | None => True
  end →
  read_loop JSON_parse a limit ft (line :: lines) results
  = read_loop JSON_parse a limit ft lines results.
Proof.
  unfold decodable, passes. simpl.
  destruct (JS.falsy (JS.trim line)); [done|].
  destruct (JSON_parse line) as [e|]; [|done].
  destruct (bool_decide (seq e ≤ a)); [done|].
  by destruct (type_mismatch ft e).
Qed.

Lemma read_loop_keep a limit ft line lines results e :
  decodable JSON_parse line = Some e →
  passes a ft e = true →
  read_loop JSON_parse a limit ft (line :: lines) results
  = if limit_reached (results ++ [e]) limit then (results ++ [e], lines)
    else read_loop JSON_parse a limit ft lines (results ++ [e]).
Proof.
  unfold decodable, passes. simpl.
  destruct (JS.falsy (JS.trim line)); [done|].
  intros ->. destruct (bool_decide (seq e ≤ a)); [done|].
  by destruct (type_mismatch ft e).
Qed.

Lemma kept_cons a ft line lines :
  kept a ft (line :: lines)
  = match decodable JSON_parse line with
    | Some e => if passes a ft e then e :: kept a ft lines else kept a ft lines
    | None => kept a ft lines
    end.
Proof.
  simpl. destruct (decodable JSON_parse line) as [e|]; simpl; [|done].
  rewrite filter_cons. destruct (passes a ft e) eqn:E.
  - by rewrite decide_True.
  - by rewrite decide_False.
Qed.

(** Without a limit the loop keeps every entry that passes. *)
Lemma read_loop_unlimited a ft lines results :
  read_loop JSON_parse a None ft lines results = (results ++ kept a ft lines, []).
Proof.
  revert results. induction lines as [|line lines IH]; intros results.
  { simpl. by rewrite app_nil_r. }
  rewrite kept_cons.
  destruct (decodable JSON_parse line) as [e|] eqn:D.
  - destruct (passes a ft e) eqn:E.
    + rewrite (read_loop_keep _ _ _ _ _ _ e) by done. simpl.
      by rewrite IH, <- app_assoc.
    + rewrite read_loop_skip; [apply IH|by rewrite D].
  - rewrite read_loop_skip; [apply IH|by rewrite D].
Qed.

(** With a limit of at least one, not yet reached, the loop stops on the
    line that brings the count to the limit and leaves the lines after
    it unread. *)
Lemma read_loop_limited a n ft lines results :
  (length results < Z.to_nat n)%nat →
  ∃ scanned unread,
    lines = scanned ++ unread ∧
    read_loop JSON_parse a (Some n) ft lines results
    = (take (Z.to_nat n) (results ++ kept a ft lines), unread) ∧
    take (Z.to_nat n) (results ++ kept a ft lines) = results ++ kept a ft scanned ∧
    ((length (results ++ kept a ft lines) < Z.to_nat n)%nat ∧ unread = [] ∨
     ∃ earlier line e, scanned = earlier ++ [line] ∧
       decodable JSON_parse line = Some e ∧ passes a ft e = true ∧
       length (results ++ kept a ft scanned) = Z.to_nat n).
Proof.
  revert results. induction lines as [|line lines IH]; intros results Hn.
  { exists [], []. simpl. rewrite app_nil_r, take_ge by lia.
    split_and!; auto. }
  assert (Hskip : kept a ft (line :: lines) = kept a ft lines →
            read_loop JSON_parse a (Some n) ft (line :: lines) results
            = read_loop JSON_parse a (Some n) ft lines results →
            kept a ft [line] = [] →
            ∃ scanned unread, line :: lines = scanned ++ unread ∧
              read_loop JSON_parse a (Some n) ft (line :: lines) results
              = (take (Z.to_nat n) (results ++ kept a ft (line :: lines)), unread) ∧
              take (Z.to_nat n) (results ++ kept a ft (line :: lines))
              = results ++ kept a ft scanned ∧
              ((length (results ++ kept a ft (line :: lines)) < Z.to_nat n)%nat
               ∧ unread = [] ∨
               ∃ earlier line0 e, scanned = earlier ++ [line0] ∧
                 decodable JSON_parse line0 = Some e ∧ passes a ft e = true ∧
                 length (results ++ kept a ft scanned) = Z.to_nat n)).
  { intros -> -> Hone.
    destruct (IH results Hn) as (scanned & unread & -> & -> & Htake & Hend).
    assert (Hk : kept a ft (line :: scanned) = kept a ft scanned).
    { change (line :: scanned) with ([line] ++ scanned).
      by rewrite omap_app, filter_app, Hone. }
    exists (line :: scanned), unread. rewrite Hk. split_and!; auto.
    destruct Hend as [?|(earlier & line0 & e & Hs & ? & ? & ?)]; [by left|right].
    exists (line :: earlier), line0, e. split_and!; auto.
    by rewrite Hs. }
  pose proof (kept_cons a ft line lines) as Hcons.
  pose proof (kept_cons a ft line []) as Hone.
  destruct (decodable JSON_parse line) as [e|] eqn:D.
  - destruct (passes a ft e) eqn:E.
    + rewrite (read_loop_keep _ _ _ _ _ _ e), Hcons by done.
      unfold limit_reached. rewrite length_app. simpl. case_bool_decide as Hlim.
      * assert (Hfull : take (Z.to_nat n) (results ++ e :: kept a ft lines)
                        = results ++ [e]).
        { rewrite cons_middle, (assoc_L (++) results [e]).
          apply take_app_length'. rewrite length_app. simpl. lia. }
        exists [line], lines. rewrite Hone, Hfull. split_and!; [done..|].
        right. exists [], line, e. split_and!; auto.
           rewrite length_app. simpl. lia.
      * destruct (IH (results ++ [e])) as (scanned & unread & -> & -> & Htake & Hend).
        { rewrite length_app. simpl. lia. }
        assert (Hk : kept a ft (line :: scanned) = e :: kept a ft scanned).
        { by rewrite kept_cons, D, E. }
        rewrite <- !(assoc_L (++) results [e]) in *.
        rewrite <- !cons_middle in *.
        exists (line :: scanned), unread. rewrite Hk. split_and!; auto.
        destruct Hend as [?|(earlier & line0 & e0 & Hs & ? & ? & ?)]; [by left|right].
        exists (line :: earlier), line0, e0. split_and!; auto.
        by rewrite Hs.
    + apply Hskip; [done| |done]. apply read_loop_skip. by rewrite D.
  - apply Hskip; [done| |done]. apply read_loop_skip. by rewrite D.
Qed.

(** With a limit of zero or less the test [results.length >= limit]
    holds after the first entry pushed. *)
Lemma read_loop_nonpositive a n ft lines :
  n ≤ 0 →
  fst (read_loop JSON_parse a (Some n) ft lines []) = take 1 (kept a ft lines).
Proof.
  intros Hn. induction lines as [|line lines IH]; [done|].
  rewrite kept_cons.
  destruct (decodable JSON_parse line) as [e|] eqn:D.
  - destruct (passes a ft e) eqn:E.
    + rewrite (read_loop_keep _ _ _ _ _ _ e) by done.
      unfold limit_reached. simpl. rewrite bool_decide_true by lia. done.
    + rewrite read_loop_skip; [apply IH|by rewrite D].
  - rewrite read_loop_skip; [apply IH|by rewrite D].
Qed.

(** For a type filter that is not the empty string, passing the tests of
    the loop is being eligible. *)
Lemma passes_eligible a ft (e : EventLogEntry T) :
  ft ≠ Some EmptyString → passes a ft e = eligible a ft e.
Proof.
  intros Hft. unfold passes, eligible, type_mismatch.
  destruct ft as [t|].
  - destruct t; [done|]. simpl.
    repeat case_bool_decide; simpl; try done; lia.
  - repeat case_bool_decide; simpl; try done; lia.
Qed.

End Read.

Section ReadClaims.

Context {T : Type}.
Variable JSON_parse : string → option (EventLogEntry T).

Lemma StronglySorted_sublist {A} (R : relation A) (l k : list A) :
  l `sublist_of` k → StronglySorted R k → StronglySorted R l.
Proof.
  intros Hsub Hk. revert l Hsub.
  induction Hk as [|x k Hk IH Hx]; intros l Hsub.
  - apply sublist_nil_r in Hsub as ->. constructor.
  - apply sublist_cons_r in Hsub as [Hsub|(l' & -> & Hsub)]; [by apply IH|].
    constructor; [by apply IH|].
    apply Forall_forall. intros y Hy. rewrite Forall_forall in Hx.
    apply Hx. by eapply elem_of_sublist.
Qed.

Lemma read_as_described_sublist (raw : string) (readOpts : ReadOpts) :
  read_as_described JSON_parse (Some raw) readOpts
    `sublist_of` entries_of JSON_parse raw.
Proof.
  unfold read_as_described, first_n.
  destruct (opt_limit readOpts).
  - etrans; [apply sublist_take|apply sublist_filter].
  - apply sublist_filter.
Qed.

Lemma filter_passes_eligible a ft (l : list (EventLogEntry T)) :
  ft ≠ Some EmptyString →
  filter (λ e, passes a ft e = true) l = filter (λ e, eligible a ft e = true) l.
Proof.
  intros Hft. apply list_filter_iff. intros e. by rewrite passes_eligible.
Qed.

(** C3, amended.  For every content of the file whose lines that parse
    hold records with an integer [seq] and a string [type], and for
    options whose cursor and limit, when given, are integers, the limit at
    least one, and whose type, when given, is not the empty string:
    [read] returns the decodable entries whose [seq] is
    strictly greater than [afterSeq] and whose type is the one asked for,
    in the order of their lines (hence by ascending [seq] when the file
    holds them so), the first [limit] of them when there are more; the
    loop stops on the line that brings the count to the limit and reads
    no line after it; lines that do not decode are passed over; a missing
    file gives the empty list, another read error is thrown. *)
Theorem read_as_described_in_file_order (file : option string) (readOpts : ReadOpts) :
  (∀ n, opt_limit readOpts = Some n → 1 ≤ n) →
  opt_type readOpts ≠ Some EmptyString →
  read JSON_parse None file readOpts
    = inr (read_as_described JSON_parse file readOpts) ∧
  (∀ n, opt_limit readOpts = Some n →
        Z.of_nat (length (read_as_described JSON_parse file readOpts)) ≤ n) ∧
  (∀ raw, file = Some raw →
     read_as_described JSON_parse file readOpts `sublist_of` entries_of JSON_parse raw ∧
     (StronglySorted Z.lt (seq <$> entries_of JSON_parse raw) →
      StronglySorted Z.lt (seq <$> read_as_described JSON_parse file readOpts))) ∧
  (∀ raw n, file = Some raw → opt_limit readOpts = Some n →
     ∃ scanned unread,
       JS.split_nl raw = scanned ++ unread ∧
       snd (read_loop JSON_parse (default 0 (opt_afterSeq readOpts)) (Some n)
              (opt_type readOpts) (JS.split_nl raw) []) = unread ∧
       read_as_described JSON_parse file readOpts
         = filter (λ e, eligible (default 0 (opt_afterSeq readOpts))
                          (opt_type readOpts) e = true)
             (omap (decodable JSON_parse) scanned) ∧
       (unread = [] ∨
        ∃ earlier line e,
          scanned = earlier ++ [line] ∧ decodable JSON_parse line = Some e ∧
          eligible (default 0 (opt_afterSeq readOpts)) (opt_type readOpts) e = true ∧
          Z.of_nat (length (read_as_described JSON_parse file readOpts)) = n)) ∧
  read JSON_parse None None readOpts = inr [] ∧
  (∀ err, read JSON_parse (Some err) file readOpts
          = if isENOENT err then inr [] else inl err).
Proof.
  intros Hlimit Htype.
  assert (Hread : read JSON_parse None file readOpts
                  = inr (read_as_described JSON_parse file readOpts)).
  { destruct file as [raw|]; [|done].
    unfold read, read_as_described, entries_of, first_n. simpl. f_equal.
    rewrite <- filter_passes_eligible by done.
    destruct (opt_limit readOpts) as [n|] eqn:En.
    - specialize (Hlimit n eq_refl).
      destruct (read_loop_limited JSON_parse (default 0 (opt_afterSeq readOpts)) n
                  (opt_type readOpts) (JS.split_nl raw) [])
        as (scanned & unread & _ & -> & _); [simpl; lia|done].
    - by rewrite read_loop_unlimited. }
  split_and!; [done|..|done|done].
  - intros n En. pose proof (Hlimit n En). destruct file as [raw|]; simpl; [|lia].
    unfold first_n. rewrite En, length_take. lia.
  - intros raw ->. split; [apply read_as_described_sublist|].
    apply StronglySorted_sublist.
    apply fmap_sublist, read_as_described_sublist.
  - intros raw n -> En. specialize (Hlimit n En).
    destruct (read_loop_limited JSON_parse (default 0 (opt_afterSeq readOpts)) n
                (opt_type readOpts) (JS.split_nl raw) [])
      as (scanned & unread & Hs & Hl & Ht & Hend); [simpl; lia|].
    exists scanned, unread. unfold read_as_described, first_n, entries_of.
    rewrite En, Hl, <- !filter_passes_eligible by done.
    simpl in Ht. rewrite Ht. split_and!; [done..|].
    destruct Hend as [[_ ->]|(earlier & line & e & ? & ? & ? & Hlen)]; [by left|right].
    exists earlier, line, e. rewrite <- passes_eligible by done.
    split_and!; [done..|]. simpl in Hlen. lia.
Qed.

(** C10, amended.  With a limit of zero or less, a type filter that, when
    given, is not the empty string, and at least one eligible entry in the
    file (its [seq] is past the cursor and its type is the one asked for),
    [read] returns exactly one entry, the first eligible one: the limit is
    tested only after an entry has been pushed. *)
Theorem read_nonpositive_limit_gives_one (raw : string) (readOpts : ReadOpts)
    (n : Z) (e : EventLogEntry T) (others : list (EventLogEntry T)) :
  opt_limit readOpts = Some n →
  n ≤ 0 →
  opt_type readOpts ≠ Some EmptyString →
  filter (λ e, eligible (default 0 (opt_afterSeq readOpts)) (opt_type readOpts) e = true)
    (entries_of JSON_parse raw) = e :: others →
  read JSON_parse None (Some raw) readOpts = inr [e].
Proof.
  intros En Hn Hty He. unfold read. simpl. rewrite En.
  rewrite read_loop_nonpositive by done.
  rewrite <- filter_passes_eligible in He by done.
  unfold entries_of in He. by rewrite He.
Qed.

End ReadClaims.

(** The file of three records written by [append], types [A], [A], [B]. *)
Example read_filtering :
  let file := Some (MiniJSON.line_of (MiniJSON.entry 1 "A") +:+
                    MiniJSON.line_of (MiniJSON.entry 2 "A") +:+
                    MiniJSON.line_of (MiniJSON.entry 3 "B")) in
  read MiniJSON.parse None file
    {| opt_afterSeq := None; opt_limit := None; opt_type := Some "A" |}
    = inr [MiniJSON.entry 1 "A"; MiniJSON.entry 2 "A"] ∧
  read MiniJSON.parse None file
    {| opt_afterSeq := Some 1; opt_limit := None; opt_type := None |}
    = inr [MiniJSON.entry 2 "A"; MiniJSON.entry 3 "B"] ∧
  read MiniJSON.parse None file
    {| opt_afterSeq := None; opt_limit := Some 1; opt_type := None |}
    = inr [MiniJSON.entry 1 "A"].
Proof. vm_compute. done. Qed.

Lemma read_as_described_in_file_order_witness :
  let file := Some (MiniJSON.line_of (MiniJSON.entry 1 "A") +:+
                    MiniJSON.line_of (MiniJSON.entry 2 "A") +:+
                    MiniJSON.line_of (MiniJSON.entry 3 "B")) in
  let readOpts := {| opt_afterSeq := Some 1; opt_limit := Some 1; opt_type := Some "A" |} in
  read MiniJSON.parse None file readOpts
  = inr (read_as_described MiniJSON.parse file readOpts).
Proof.
  intros file readOpts.
  apply (read_as_described_in_file_order MiniJSON.parse file readOpts).
  - intros n [= <-]. lia.
  - done.
Defined.

Lemma read_nonpositive_limit_gives_one_witness :
  read MiniJSON.parse None
    (Some (MiniJSON.line_of (MiniJSON.entry 1 "A") +:+
           MiniJSON.line_of (MiniJSON.entry 2 "B") +:+
           MiniJSON.line_of (MiniJSON.entry 3 "B")))
    {| opt_afterSeq := None; opt_limit := Some 0; opt_type := Some "B" |}
  = inr [MiniJSON.entry 2 "B"].
Proof.
  apply (read_nonpositive_limit_gives_one MiniJSON.parse _ _ 0 _ [MiniJSON.entry 3 "B"]).
  - reflexivity.
  - lia.
  - discriminate.
  - vm_compute. reflexivity.
Defined.

(** C10 as it is stated fails on the code: with the empty string as type
    and a limit of zero, [read] returns the first entry past the cursor,
    of type [A], which is not eligible; the first eligible entry is the
    second one. *)
Lemma read_limit_zero_with_empty_type :
  let raw := MiniJSON.line_of (MiniJSON.entry 1 "A") +:+
             MiniJSON.line_of (MiniJSON.entry 2 EmptyString) in
  let readOpts := {| opt_afterSeq := None; opt_limit := Some 0;
                     opt_type := Some EmptyString |} in
  read MiniJSON.parse None (Some raw) readOpts = inr [MiniJSON.entry 1 "A"] ∧
  eligible 0 (Some EmptyString) (MiniJSON.entry 1 "A") = false ∧
  filter (λ e, eligible 0 (Some EmptyString) e = true) (entries_of MiniJSON.parse raw)
  = [MiniJSON.entry 2 EmptyString] ∧
  MiniJSON.entry 1 "A" ≠ MiniJSON.entry 2 EmptyString.
Proof. split_and!; [vm_compute; reflexivity..|discriminate]. Qed.

(** C3 as it is stated fails on the code: the order is the one of the
    lines, a limit of zero lets one entry through, and the empty string as
    type filters nothing. *)
Lemma read_not_as_claimed :
  let file := Some (MiniJSON.line_of (MiniJSON.entry 2 "A") +:+
                    MiniJSON.line_of (MiniJSON.entry 1 "B")) in
  (read MiniJSON.parse None file noOpts
     = inr [MiniJSON.entry 2 "A"; MiniJSON.entry 1 "B"] ∧
   ¬ StronglySorted Z.lt (seq <$> [MiniJSON.entry 2 "A"; MiniJSON.entry 1 "B"])) ∧
  (read MiniJSON.parse None file
     {| opt_afterSeq := None; opt_limit := Some 0; opt_type := None |}
     = inr [MiniJSON.entry 2 "A"] ∧
   ¬ Z.of_nat (length [MiniJSON.entry 2 "A"]) ≤ 0) ∧
  (read MiniJSON.parse None file
     {| opt_afterSeq := None; opt_limit := None; opt_type := Some EmptyString |}
     = inr [MiniJSON.entry 2 "A"; MiniJSON.entry 1 "B"] ∧
   type (MiniJSON.entry 2 "A") ≠ EmptyString).
Proof.
  split_and!; try (vm_compute; done).
  intros H. inversion H as [|? ? _ Hall]; subst.
  apply Forall_cons_1 in Hall as [Hlt _]. vm_compute in Hlt. done.
Qed.

(** ** Append and the counter *)

Section Append.

Context {T : Type}.
Variable JSON_parse : string → option (EventLogEntry T).
Variable JSON_stringify : EventLogEntry T → throws string.
Variable body : listener → EventLogEntry T → reaction.

Local Abbreviation append' := (append JSON_stringify body).
Local Abbreviation run' := (run JSON_stringify body).

(** Nothing a listener may call touches the counter. *)
Lemma perform_seq (a : action) (st : EventLog) : st_seq (perform a st) = st_seq st.
Proof.
  destruct a as [l|ty l|[l|set ty l]|]; simpl; try done.
  - unfold subscribeType. by destruct (st_typeListeners st !! ty).
  - destruct (alter _ set (st_sets st) !! set); [|done]. by case_bool_decide.
Qed.

Lemma invoke_seq fn (entry : EventLogEntry T) st :
  st_seq (fst (invoke body fn entry st)) = st_seq st.
Proof.
  unfold invoke. simpl. generalize (calls (body fn entry)). intros acts.
  revert st. induction acts as [|a acts IH]; intros st; [done|].
  simpl. by rewrite IH, perform_seq.
Qed.

Lemma fan_out_seq fuel (entry : EventLogEntry T) r index st got st' got' :
  fan_out body fuel entry r index st got = Some (st', got') →
  st_seq st' = st_seq st.
Proof.
  revert index st got. induction fuel as [|fuel IH]; intros index st got; simpl.
  - destruct (slots r st !! index); [done|]. by intros [= <- _].
  - destruct (slots r st !! index) as [[fn|]|]; [| |by intros [= <- _]].
    + intros H%IH. rewrite H. apply (invoke_seq fn entry st).
    + apply IH.
Qed.

(** What every finished call of [append] does to the counter, and what
    it returns and writes when it succeeds. *)
Lemma append_shape fuel now fault ty p st file r :
  append' fuel now fault ty p st file = Some r →
  lastSeq (log_after r) = lastSeq st + 1 ∧
  match returned r with
  | inr entry =>
      entry = {| seq := lastSeq st + 1; ts := now; type := ty; payload := p |} ∧
      ∃ json, JSON_stringify entry = inr json ∧
              file_after r = Some (default EmptyString file +:+ json +:+ JS.newline)
  | inl _ => notified r = []
  end.
Proof.
  unfold append, lastSeq. simpl.
  destruct (JSON_stringify _) as [err|json] eqn:Ejson; [by intros [= <-]|].
  destruct fault as [wf|]; simpl; [by intros [= <-]|].
  destruct (fan_out _ _ _ Listeners _ _ _) as [[st1 got1]|] eqn:E1; simpl; [|done].
  apply fan_out_seq in E1. simpl in E1.
  destruct (st_typeListeners st1 !! ty) as [tSet|].
  - destruct (fan_out _ _ _ (TypeSet tSet) _ _ _) as [[st2 got2]|] eqn:E2; simpl; [|done].
    apply fan_out_seq in E2. intros [= <-]. simpl. rewrite Ejson.
    split; [congruence|]. split; [done|]. by eexists.
  - intros [= <-]. simpl. rewrite Ejson.
    split; [congruence|]. split; [done|]. by eexists.
Qed.

(** The counter at the end is the one of the start plus the number of
    calls of [append]; the [k]-th of them, when it succeeds, returns the
    counter of the start plus [k + 1] and leaves it at that. *)
Lemma run_seq fuel ops st file rs st' file' :
  run' fuel ops st file = Some (rs, st', file') →
  lastSeq st' = lastSeq st + Z.of_nat (length rs) ∧
  ∀ (k : nat) r, rs !! k = Some r →
    lastSeq (log_after r) = lastSeq st + Z.of_nat k + 1 ∧
    ∀ entry, returned r = inr entry → seq entry = lastSeq st + Z.of_nat k + 1.
Proof.
  revert st file rs. induction ops as [|[c|a] ops IH]; intros st file rs; simpl.
  - intros [= <- <- <-]. split; [simpl; lia|]. intros k r. by rewrite lookup_nil.
  - destruct (append _ _ _ _ _ _ _ st file) as [r0|] eqn:E0; simpl; [|done].
    destruct (run _ _ _ _ _ _) as [[[rs0 st0] file0]|] eqn:Es; simpl; [|done].
    intros [= <- <- <-]. destruct (IH _ _ _ Es) as [Hend Hrest].
    apply append_shape in E0 as [Hseq Hret].
    split; [simpl; lia|].
    intros [|k] r; simpl.
    + intros [= <-]. split; [lia|]. intros entry Hentry. rewrite Hentry in Hret.
      destruct Hret as [-> _]. simpl. lia.
    + intros Hr. destruct (Hrest k r Hr) as [? Hk]. split; [lia|].
      intros entry Hentry. rewrite (Hk entry Hentry). lia.
  - intros Hrun. destruct (IH _ _ _ Hrun) as [Hend Hrest].
    unfold lastSeq in *. rewrite perform_seq in *. done.
Qed.

(** C1. On a log freshly created over a missing or empty file, the calls
    of [append] that succeed one after the other return the [seq] values
    1, 2, ..., N in the order of the calls, and [lastSeq] is [k] after
    the [k]-th of them; subscriptions made in between change nothing. *)
Theorem append_seq_counts_from_one (file : option string) (st : EventLog)
    (fuel : nat) (ops : list operation) (rs : list Appended)
    (st' : EventLog) (file' : option string) :
  file = None ∨ file = Some EmptyString →
  createEventLog JSON_parse None None file = inr st →
  run' fuel ops st file = Some (rs, st', file') →
  Forall (succeeded (T := T)) rs →
  lastSeq st = 0 ∧
  lastSeq st' = Z.of_nat (length rs) ∧
  ∀ (k : nat) r, rs !! k = Some r →
    ∃ entry, returned r = inr entry ∧
             seq entry = Z.of_nat k + 1 ∧
             lastSeq (log_after r) = Z.of_nat k + 1.
Proof.
  intros Hfresh Hopen Hrun Hok.
  assert (lastSeq st = 0) as Hzero.
  { destruct Hfresh as [-> | ->]; by injection Hopen as <-. }
  destruct (run_seq _ _ _ _ _ _ _ Hrun) as [Hend Hall].
  split; [done|]. split; [lia|]. intros k r Hr.
  destruct (Hall k r Hr) as [Hlast Hentry].
  rewrite Forall_lookup in Hok. specialize (Hok k r Hr). unfold succeeded in Hok.
  destruct (returned r) as [|entry]; [done|].
  exists entry. rewrite (Hentry entry eq_refl). split_and!; [done|lia|lia].
Qed.

(** C5. A call of [append] whose write fails throws the error of the
    write; the counter stays advanced by one, so that the call that
    follows gets the number after; no listener is called and the
    listener sets are as before.  The counter is a safe integer before
    and after the call, and after the call that follows for what is said
    of that one. *)
Theorem append_write_failure fuel now (wf : WriteFault) ty p st file json :
  JS.isSafeInteger (lastSeq st) →
  JS.isSafeInteger (lastSeq st + 1) →
  JSON_stringify {| seq := lastSeq st + 1; ts := now; type := ty; payload := p |}
    = inr json →
  ∃ r, append' fuel now (Some wf) ty p st file = Some r ∧
       returned r = inl (wf_error wf) ∧
       lastSeq (log_after r) = lastSeq st + 1 ∧
       notified r = [] ∧
       st_listeners (log_after r) = st_listeners st ∧
       st_sets (log_after r) = st_sets st ∧
       st_typeListeners (log_after r) = st_typeListeners st ∧
       (JS.isSafeInteger (lastSeq st + 2) →
        ∀ fuel' now' fault' ty' p' r' entry,
          append' fuel' now' fault' ty' p' (log_after r) (file_after r) = Some r' →
          returned r' = inr entry →
          seq entry = lastSeq st + 2).
Proof.
  intros _ _ Ejson. eexists. split.
  { unfold append. unfold lastSeq in Ejson. simpl. rewrite Ejson. done. }
  split_and!; [done..|].
  intros _ fuel' now' fault' ty' p' r' entry Hnext Hret.
  apply append_shape in Hnext as [_ Hnext]. rewrite Hret in Hnext.
  destruct Hnext as [-> _]. unfold lastSeq. simpl. lia.
Qed.

End Append.

(** ** Reopening *)

Section Reopen.

Context {T : Type}.
Variable JSON_parse : string → option (EventLogEntry T).
Variable JSON_stringify : EventLogEntry T → throws string.
Variable body : listener → EventLogEntry T → reaction.

Local Abbreviation append' := (append JSON_stringify body).
Local Abbreviation run' := (run JSON_stringify body).

(** When the calls of [append] all succeed, on a file that was empty
    or ended with a line break, the file ends with the line of the last
    call. *)
Lemma run_last_line fuel ops st file rs st' file' :
  run' fuel ops st file = Some (rs, st', file') →
  Forall (succeeded (T := T)) rs →
  default EmptyString file = EmptyString ∨
    (∃ b, default EmptyString file = b +:+ JS.newline) →
  match last rs with
  | None => file' = file
  | Some r =>
      ∃ entry json before,
        returned r = inr entry ∧
        JSON_stringify entry = inr json ∧
        (before = EmptyString ∨ ∃ b, before = b +:+ JS.newline) ∧
        file' = Some (before +:+ json +:+ JS.newline)
  end.
Proof.
  revert st file rs. induction ops as [|[c|a] ops IH]; intros st file rs; simpl.
  - by intros [= <- <- <-].
  - destruct (append _ _ _ _ _ _ _ st file) as [r0|] eqn:E0; simpl; [|done].
    destruct (run _ _ _ _ _ _) as [[[rs0 st0] file0]|] eqn:Es; simpl; [|done].
    intros [= <- <- <-] [Hok Hoks]%Forall_cons_1 Hfile.
    apply append_shape in E0 as [_ Hret]. unfold succeeded in Hok.
    destruct (returned r0) as [|entry] eqn:Er0; [done|].
    destruct Hret as (-> & json & Ejson & Efile).
    specialize (IH _ _ _ Es Hoks). rewrite Efile in IH. simpl in IH.
    destruct rs0 as [|r1 rs0].
    + simpl in *. rewrite IH by (right; exists (default EmptyString file +:+ json);
        by rewrite string_app_assoc).
      eexists _, json, (default EmptyString file). by split_and!.
    + rewrite last_cons_cons. destruct (last (r1 :: rs0)) eqn:Elast.
      * apply IH. right.
        exists (default EmptyString file +:+ json). by rewrite string_app_assoc.
      * by apply last_None in Elast.
  - apply IH.
Qed.

(** A log just created has no listener: [append] then ends whatever
    the fuel is. *)
Lemma append_without_listeners fuel now ty p (n : Z) file json :
  JSON_stringify {| seq := n + 1; ts := now; type := ty; payload := p |} = inr json →
  append' fuel now None ty p
    {| st_seq := n; st_listeners := []; st_sets := []; st_typeListeners := ∅ |} file
  = Some {| returned := inr {| seq := n + 1; ts := now; type := ty; payload := p |};
            log_after := {| st_seq := n + 1; st_listeners := []; st_sets := [];
                            st_typeListeners := ∅ |};
            file_after := Some (default EmptyString file +:+ json +:+ JS.newline);
            notified := [] |}.
Proof.
  intros Ejson. unfold append. simpl. rewrite Ejson. simpl.
  destruct fuel; simpl; by rewrite lookup_empty.
Qed.

(** C4. After N calls of [append] that all succeed on a log freshly
    created over a path, a new instance created over the same path has
    [lastSeq] equal to N, and its next [append] that succeeds returns the
    entry of [seq] N + 1 (and does succeed when the entry can be
    serialised and the write goes through).  The lines written are
    supposed to be read back by [JSON_parse]. *)
Theorem reopen_continues_after_last (file : option string) (st : EventLog)
    (fuel : nat) (ops : list operation) (rs : list Appended)
    (st1 : EventLog) (file1 : option string) :
  file = None ∨ file = Some EmptyString →
  createEventLog JSON_parse None None file = inr st →
  run' fuel ops st file = Some (rs, st1, file1) →
  Forall (succeeded (T := T)) rs →
  (∀ r entry, r ∈ rs → returned r = inr entry →
              reads_back JSON_parse JSON_stringify entry) →
  ∃ st',
    createEventLog JSON_parse None None file1 = inr st' ∧
    lastSeq st' = Z.of_nat (length rs) ∧
    (∀ fuel' now ty p r entry,
       append' fuel' now None ty p st' file1 = Some r →
       returned r = inr entry →
       seq entry = Z.of_nat (length rs) + 1) ∧
    (∀ fuel' now ty p json,
       JSON_stringify {| seq := Z.of_nat (length rs) + 1; ts := now;
                         type := ty; payload := p |} = inr json →
       ∃ r, append' fuel' now None ty p st' file1 = Some r ∧
            returned r = inr {| seq := Z.of_nat (length rs) + 1; ts := now;
                                type := ty; payload := p |}).
Proof.
  intros Hfresh Hopen Hrun Hok Hcodec.
  assert (lastSeq st = 0) as Hzero.
  { destruct Hfresh as [-> | ->]; by injection Hopen as <-. }
  destruct (run_seq _ _ _ _ _ _ _ _ _ Hrun) as [_ Hseq].
  assert (recoverLastSeq JSON_parse None file1 = inr (Z.of_nat (length rs))) as Hrec.
  { pose proof (run_last_line _ _ _ _ _ _ _ Hrun Hok) as Hlast.
    destruct (last rs) as [r|] eqn:Elast.
    - destruct Hlast as (entry & json & before & Hret & Ejson & Hbefore & ->).
      { destruct Hfresh as [-> | ->]; by left. }
      destruct (Hcodec r entry) as (json' & entry' & Ejson' & Hline & Hvis & Hparse & Hsame);
        [by eapply last_Some_elem_of|done|].
      assert (json' = json) as -> by congruence.
      change (before +:+ json +:+ JS.newline)
        with (before +:+ json +:+ JS.newline +:+ EmptyString).
      rewrite (recover_record_then_junk JSON_parse before json EmptyString entry');
        [|done..|by repeat constructor].
      rewrite Hsame. apply last_Some in Elast as [rs' ->].
      destruct (Hseq (length rs') r) as [_ Hentry].
      { by rewrite lookup_app_r, Nat.sub_diag by lia. }
      rewrite (Hentry entry Hret), length_app. simpl. f_equal. lia.
    - rewrite Hlast by (destruct Hfresh as [-> | ->]; by left).
      apply last_None in Elast as ->.
      destruct Hfresh as [-> | ->]; done. }
  unfold createEventLog. rewrite Hrec. eexists. split; [done|].
  split; [done|]. split.
  - intros fuel' now ty p r entry Happ Hret.
    apply append_shape in Happ as [_ Happ]. rewrite Hret in Happ.
    by destruct Happ as [-> _].
  - intros fuel' now ty p json Ejson. eexists. split.
    + by apply append_without_listeners.
    + done.
Qed.

End Reopen.

(** ** The listener sets *)

Section SetFacts.

Implicit Types (s : JS.Set_ listener) (l f : listener).

Lemma members_app s1 s2 : JS.members (s1 ++ s2) = JS.members s1 ++ JS.members s2.
Proof. apply omap_app. Qed.

Lemma elem_of_members l s : l ∈ JS.members s ↔ Some l ∈ s.
Proof.
  unfold JS.members. rewrite list_elem_of_omap. split.
  - by intros ([x|] & ? & [= ->]).
  - intros ?. by exists (Some l).
Qed.

Lemma not_in_add f l s : l ≠ f → Some f ∉ s → Some f ∉ JS.add l s.
Proof.
  intros Hne Hs. unfold JS.add. destruct (JS.has l s); [done|].
  rewrite elem_of_app, list_elem_of_singleton. intros [?|[= ?]]; done.
Qed.

Lemma in_delete f l s : Some f ∈ JS.delete l s → Some f ∈ s.
Proof.
  unfold JS.delete. rewrite list_elem_of_fmap. intros (slot & Hf & Hslot).
  by destruct (decide (slot = Some l)); simplify_eq.
Qed.

Lemma not_in_clear f s : Some f ∉ JS.clear s.
Proof. unfold JS.clear. rewrite list_elem_of_fmap. by intros (? & ? & ?). Qed.

Lemma members_clear s : JS.members (JS.clear s) = [].
Proof.
  apply elem_of_nil_inv. intros l Hl%elem_of_members. by apply not_in_clear in Hl.
Qed.

Lemma delete_idemp l s : JS.delete l (JS.delete l s) = JS.delete l s.
Proof.
  unfold JS.delete. rewrite <- list_fmap_compose. apply list_fmap_ext.
  intros _ slot _. simpl. destruct (decide (slot = Some l)) as [->|]; [done|].
  by rewrite decide_False.
Qed.

End SetFacts.

Section Registry.

Implicit Types (st : EventLog) (f l : listener) (a : action) (r : setref).

(** An action that does not register [f] leaves it out of every set it
    was out of. *)
Lemma perform_slots_out f a st r :
  ¬ subscribes f a → Some f ∉ slots r st → Some f ∉ slots r (perform a st).
Proof.
  intros Hf Hout. destruct a as [l|ty l|[l|set ty l]|]; simpl in Hf.
  - destruct r; [|done]. by apply not_in_add.
  - destruct r as [|set'].
    { simpl. unfold subscribeType. by destruct (st_typeListeners st !! ty). }
    unfold slots in *. simpl. unfold subscribeType.
    destruct (st_typeListeners st !! ty) as [set|]; simpl.
    + destruct (decide (set = set')) as [->|Hne].
      * rewrite list_lookup_alter_eq.
        destruct (st_sets st !! set') as [s|] eqn:E; simpl in *; [|apply not_elem_of_nil].
        by apply not_in_add.
      * by rewrite list_lookup_alter_ne.
    + destruct (decide (length (st_sets st) = set')) as [<-|Hne].
      * rewrite list_lookup_alter_eq, lookup_app_r, Nat.sub_diag by done. simpl.
        apply not_in_add; [done|apply not_elem_of_nil].
      * rewrite list_lookup_alter_ne by done.
        destruct (decide (set' < length (st_sets st))%nat).
        -- by rewrite lookup_app_l.
        -- rewrite lookup_ge_None_2; [apply not_elem_of_nil|].
           rewrite length_app. simpl. lia.
  - destruct r; [|done]. simpl. intros H. by apply in_delete in H.
  - assert (Some f ∉ slots r (with_sets (alter (JS.delete l) set (st_sets st)) st)) as H.
    { destruct r as [|set']; [done|]. unfold slots in *. simpl.
      destruct (decide (set = set')) as [->|Hne].
      - rewrite list_lookup_alter_eq.
        destruct (st_sets st !! set') as [s|] eqn:E; simpl in *; [|apply not_elem_of_nil].
        intros H. by apply in_delete in H.
      - by rewrite list_lookup_alter_ne. }
    simpl. destruct (alter _ set (st_sets st) !! set); [|done].
    case_bool_decide; [|done]. by destruct r.
  - destruct r; [|done]. apply not_in_clear.
Qed.

Lemma perform_unregistered f a st :
  ¬ subscribes f a → unregistered f st → unregistered f (perform a st).
Proof.
  intros Hf [Hglobal Htyped]. split.
  { by apply (perform_slots_out f a st Listeners). }
  intros ty set Hset. apply perform_slots_out; [done|].
  destruct a as [l|ty' l|[l|set' ty' l]|]; simpl in Hset.
  - by eapply Htyped.
  - unfold subscribeType in Hset.
    destruct (st_typeListeners st !! ty') as [set'|] eqn:E; simpl in Hset.
    + by eapply Htyped.
    + destruct (decide (ty' = ty)) as [->|Hne].
      * rewrite lookup_insert_eq in Hset. injection Hset as <-.
        simpl. rewrite lookup_ge_None_2 by done. apply not_elem_of_nil.
      * rewrite lookup_insert_ne in Hset by done. by eapply Htyped.
  - by eapply Htyped.
  - destruct (alter _ set' (st_sets st) !! set'); [|by eapply Htyped].
    case_bool_decide; [|by eapply Htyped]. simpl in Hset.
    apply lookup_delete_Some in Hset as [_ Hset]. by eapply Htyped.
  - simpl in Hset. by rewrite lookup_empty in Hset.
Qed.


(** Calling an unsubscribe function a second time right after the first
    changes nothing. *)
Lemma call_unsubscribe_twice (u : unsubscribe) st :
  call_unsubscribe u (call_unsubscribe u st) = call_unsubscribe u st.
Proof.
  destruct u as [l|set ty l]; simpl.
  - unfold with_listeners. simpl. by rewrite delete_idemp.
  - assert (alter (JS.delete l) set (alter (JS.delete l) set (st_sets st))
            = alter (JS.delete l) set (st_sets st)) as Hsets.
    { rewrite list_alter_alter_eq. apply list_alter_ext; [|done].
      intros s _. simpl. apply delete_idemp. }
    destruct (alter (JS.delete l) set (st_sets st) !! set) as [s|] eqn:E; simpl.
    + case_bool_decide as Hsize; simpl; rewrite Hsets, E.
      * rewrite bool_decide_true by done.
        unfold with_typeListeners, with_sets. simpl. by rewrite delete_delete_eq.
      * by rewrite bool_decide_false by done.
    + by rewrite Hsets, E.
Qed.

End Registry.

(** ** Notification *)

Section Notification.

Context {T : Type}.
Variable JSON_stringify : EventLogEntry T → throws string.
Variable body : listener → EventLogEntry T → reaction.

Implicit Types (st : EventLog) (f fn l : listener) (r : setref)
  (entry : EventLogEntry T) (got : list listener).

Local Abbreviation append' := (append JSON_stringify body).
Local Abbreviation run' := (run JSON_stringify body).

Lemma foldl_perform_preserves (P : EventLog → Prop) (acts : list action) st :
  (∀ a st, a ∈ acts → P st → P (perform a st)) →
  P st → P (foldl (λ st a, perform a st) st acts).
Proof.
  revert st. induction acts as [|a acts IH]; intros st Hstep Hst; [done|].
  simpl. apply IH.
  - intros a' st' Ha'. apply Hstep. by right.
  - apply Hstep; [by left|done].
Qed.

(** A listener that calls nothing leaves the state as it is. *)
Lemma invoke_inert fn entry st :
  calls (body fn entry) = [] → fst (invoke body fn entry st) = st.
Proof. unfold invoke. by intros ->. Qed.

(** Listeners that call nothing on the log are called one after the
    other, in the order of the slots, whether they throw or not. *)
Lemma fan_out_inert fuel entry r index st got :
  (∀ l, calls (body l entry) = []) →
  (length (slots r st) ≤ index + fuel)%nat →
  fan_out body fuel entry r index st got
  = Some (st, got ++ JS.members (drop index (slots r st))).
Proof.
  intros Hinert. revert index got.
  induction fuel as [|fuel IH]; intros index got Hfuel; simpl.
  - rewrite lookup_ge_None_2, drop_ge by lia. by rewrite app_nil_r.
  - destruct (slots r st !! index) as [slot|] eqn:E.
    + rewrite (drop_S _ _ _ E). destruct slot as [fn|].
      * pose proof (invoke_inert fn entry st (Hinert fn)) as Hst.
        unfold invoke in *. simpl in Hst. rewrite Hst.
        rewrite IH by lia. simpl. by rewrite <- app_assoc.
      * rewrite IH by lia. done.
    + apply lookup_ge_None in E. rewrite drop_ge by lia. by rewrite app_nil_r.
Qed.

(** C6, amended.  When [append] succeeds and no listener calls anything
    on the log while it is notified, the record goes to every listener of
    the global set and then to every listener of the set of its type, if
    there is one, in the order of insertion within each set; listeners
    that throw neither stop the delivery to the others nor make [append]
    fail.  (The fuel has to cover the slots of each set.) *)
Theorem append_notifies_global_then_type fuel now ty p st file json :
  (∀ l entry, calls (body l entry) = []) →
  JSON_stringify {| seq := lastSeq st + 1; ts := now; type := ty; payload := p |}
    = inr json →
  (length (st_listeners st) ≤ fuel)%nat →
  (length (typeSet_of ty st) ≤ fuel)%nat →
  append' fuel now None ty p st file
  = Some {| returned := inr {| seq := lastSeq st + 1; ts := now; type := ty;
                              payload := p |};
            log_after := with_seq (lastSeq st + 1) st;
            file_after := Some (default EmptyString file +:+ json +:+ JS.newline);
            notified := registered ty st |}.
Proof.
  intros Hinert Ejson Hglobal Htyped. unfold append, lastSeq in *.
  simpl. rewrite Ejson. simpl.
  rewrite fan_out_inert by (auto || (simpl; lia)). simpl.
  unfold registered, typeSet_of in *. simpl in *.
  destruct (st_typeListeners st !! ty) as [tSet|]; simpl.
  - rewrite fan_out_inert by (auto || (simpl in *; lia)). done.
  - by rewrite app_nil_r.
Qed.

(** A listener that is in no set, and that nobody registers, is not
    called. *)
Lemma fan_out_unregistered f fuel entry r index st got st' got' :
  (∀ l a, a ∈ calls (body l entry) → ¬ subscribes f a) →
  unregistered f st → Some f ∉ slots r st → f ∉ got →
  fan_out body fuel entry r index st got = Some (st', got') →
  unregistered f st' ∧ f ∉ got'.
Proof.
  intros Hbody. revert index st got.
  induction fuel as [|fuel IH]; intros index st got Hst Hslots Hgot; simpl.
  - destruct (slots r st !! index); [done|]. by intros [= <- <-].
  - destruct (slots r st !! index) as [[fn|]|] eqn:E; [| |by intros [= <- <-]].
    + apply IH.
      * apply (foldl_perform_preserves (unregistered f)); [|done].
        intros a st0 Ha. apply perform_unregistered. by eapply Hbody.
      * apply (foldl_perform_preserves (λ st, Some f ∉ slots r st)); [|done].
        intros a st0 Ha. apply perform_slots_out. by eapply Hbody.
      * rewrite elem_of_app, list_elem_of_singleton. intros [?| ->]; [done|].
        apply Hslots. by eapply list_elem_of_lookup_2.
    + by apply IH.
Qed.

Lemma append_unregistered f fuel now fault ty p st file res :
  (∀ l entry a, a ∈ calls (body l entry) → ¬ subscribes f a) →
  unregistered f st →
  append' fuel now fault ty p st file = Some res →
  unregistered f (log_after res) ∧ f ∉ notified res.
Proof.
  intros Hbody Hst. unfold append. simpl.
  destruct (JSON_stringify _) as [err|json].
  { intros [= <-]. simpl. split; [done|apply not_elem_of_nil]. }
  destruct (appendFile fault file _) as [[err|[]] file1].
  { intros [= <-]. simpl. split; [done|apply not_elem_of_nil]. }
  destruct (fan_out _ _ _ Listeners _ _ _) as [[st1 got1]|] eqn:E1; simpl; [|done].
  apply (fan_out_unregistered f) in E1 as [Hst1 Hgot1];
    [|by eauto|done|apply Hst|apply not_elem_of_nil].
  destruct (st_typeListeners st1 !! ty) as [tSet|] eqn:Ety.
  - destruct (fan_out _ _ _ (TypeSet tSet) _ _ _) as [[st2 got2]|] eqn:E2; simpl; [|done].
    apply (fan_out_unregistered f) in E2 as [Hst2 Hgot2];
      [|by eauto|done|by eapply Hst1|done].
    by intros [= <-].
  - by intros [= <-].
Qed.

Lemma run_unregistered f fuel ops st file rs st' file' :
  (∀ l entry a, a ∈ calls (body l entry) → ¬ subscribes f a) →
  (∀ a, Other a ∈ ops → ¬ subscribes f a) →
  unregistered f st →
  run' fuel ops st file = Some (rs, st', file') →
  ∀ res, res ∈ rs → f ∉ notified res.
Proof.
  intros Hbody. revert st file rs.
  induction ops as [|[c|a] ops IH]; intros st file rs Hops Hst; simpl.
  - intros [= <- <- <-] res Hres. by apply elem_of_nil in Hres.
  - destruct (append _ _ _ _ _ _ _ st file) as [r0|] eqn:E0; simpl; [|done].
    destruct (run _ _ _ _ _ _) as [[[rs0 st0] file0]|] eqn:Es; simpl; [|done].
    intros [= <- <- <-] res Hres.
    apply (append_unregistered f) in E0 as [Hst0 Hr0]; [|done..].
    apply elem_of_cons in Hres as [->|Hres]; [done|].
    assert (∀ a, Other a ∈ ops → ¬ subscribes f a) as Hops'.
    { intros a Ha. apply Hops. by right. }
    by eapply (IH _ _ _ Hops' Hst0 Es).
  - apply IH.
    + intros a' Ha'. apply Hops. by right.
    + apply perform_unregistered; [|done]. apply Hops. by left.
Qed.


End Notification.

(** ** The claims on concrete logs *)

Lemma recoverLastSeq_as_described_witness :
  recoverLastSeq MiniJSON.parse None
    (Some (EmptyString +:+ MiniJSON.json_of (MiniJSON.entry 1 "A") +:+ JS.newline +:+
           "{truncated"))
  = inr (seq (MiniJSON.entry 1 "A")).
Proof.
  pose proof (recoverLastSeq_as_described MiniJSON.parse) as (_ & _ & _ & _ & _ & H).
  apply (H EmptyString (MiniJSON.json_of (MiniJSON.entry 1 "A")) "{truncated"
           (MiniJSON.entry 1 "A")).
  - by left.
  - vm_compute. reflexivity.
  - vm_compute. discriminate.
  - vm_compute. reflexivity.
  - change (JS.split_nl "{truncated") with ["{truncated"].
    constructor; [right; vm_compute; reflexivity|constructor].
Defined.

Lemma append_seq_counts_from_one_witness :
  ∃ rs st' file',
    run MiniJSON.stringify MiniJSON.quiet 4 MiniJSON.three_appends MiniJSON.fresh None
      = Some (rs, st', file') ∧
    length rs = 3%nat ∧
    lastSeq st' = Z.of_nat (length rs).
Proof.
  destruct (run MiniJSON.stringify MiniJSON.quiet 4 MiniJSON.three_appends
              MiniJSON.fresh None) as [[[rs st'] file']|] eqn:E;
    [|by vm_compute in E].
  exists rs, st', file'. split; [done|].
  pose proof E as E'. vm_compute in E'. injection E' as Hrs _ _.
  split; [by rewrite <- Hrs|].
  apply (append_seq_counts_from_one MiniJSON.parse MiniJSON.stringify MiniJSON.quiet
           None MiniJSON.fresh 4 MiniJSON.three_appends rs st' file').
  - by left.
  - reflexivity.
  - exact E.
  - rewrite <- Hrs. repeat constructor.
Defined.

Lemma reopen_continues_after_last_witness :
  ∃ rs st1 file1 st',
    run MiniJSON.stringify MiniJSON.quiet 4 MiniJSON.three_appends MiniJSON.fresh None
      = Some (rs, st1, file1) ∧
    createEventLog MiniJSON.parse None None file1 = inr st' ∧
    lastSeq st' = Z.of_nat (length rs).
Proof.
  destruct (run MiniJSON.stringify MiniJSON.quiet 4 MiniJSON.three_appends
              MiniJSON.fresh None) as [[[rs st1] file1]|] eqn:E;
    [|by vm_compute in E].
  pose proof E as E'. vm_compute in E'. injection E' as Hrs _ _.
  destruct (reopen_continues_after_last MiniJSON.parse MiniJSON.stringify MiniJSON.quiet
              None MiniJSON.fresh 4 MiniJSON.three_appends rs st1 file1)
    as (st' & Hopen & Hlast & _).
  - by left.
  - reflexivity.
  - exact E.
  - rewrite <- Hrs. repeat constructor.
  - intros r entry Hr Hret. rewrite <- Hrs in Hr.
    repeat (apply elem_of_cons in Hr as [-> | Hr]); try by apply elem_of_nil in Hr.
    all: injection Hret as <-; eexists _, _; split_and!;
      [vm_compute; reflexivity..|vm_compute; discriminate|vm_compute; reflexivity|reflexivity].
  - by exists rs, st1, file1, st'.
Defined.

Lemma append_write_failure_witness :
  ∃ r, append MiniJSON.stringify MiniJSON.one_throws 0 1700000000001
         (Some MiniJSON.disk_full) "A" MiniJSON.Null MiniJSON.three_listeners None
       = Some r ∧
       returned r = inl (wf_error MiniJSON.disk_full) ∧
       lastSeq (log_after r) = lastSeq MiniJSON.three_listeners + 1 ∧
       notified r = [].
Proof.
  destruct (append_write_failure MiniJSON.stringify MiniJSON.one_throws 0 1700000000001
              MiniJSON.disk_full "A" MiniJSON.Null MiniJSON.three_listeners None
              (MiniJSON.json_of (MiniJSON.entry 1 "A")))
    as (r & Hr & Hret & Hseq & Hnot & _).
  - split; vm_compute; discriminate.
  - split; vm_compute; discriminate.
  - vm_compute. reflexivity.
  - by exists r.
Defined.

Lemma append_notifies_global_then_type_witness :
  notified <$> append MiniJSON.stringify MiniJSON.one_throws 2 1700000000001 None
                 "A" MiniJSON.Null MiniJSON.three_listeners None
  = Some [1; 2; 3]%nat.
Proof.
  rewrite (append_notifies_global_then_type MiniJSON.stringify MiniJSON.one_throws
             2 1700000000001 "A" MiniJSON.Null MiniJSON.three_listeners None
             (MiniJSON.json_of (MiniJSON.entry 1 "A"))).
  - vm_compute. reflexivity.
  - reflexivity.
  - vm_compute. reflexivity.
  - vm_compute. lia.
  - vm_compute. lia.
Defined.

(** C6 as it is stated fails on the code: listeners 1 and 2 are in the
    global set and listener 3 in the set of the type [A]; listener 1,
    while it is called, closes the log; the append succeeds and neither
    listener 2 nor listener 3 gets the record. *)
Lemma close_while_notified_ends_delivery :
  registered "A" MiniJSON.three_listeners = [1; 2; 3]%nat ∧
  (∃ r, append MiniJSON.stringify MiniJSON.one_closes 3 1700000000001 None
          "A" MiniJSON.Null MiniJSON.three_listeners None = Some r ∧
        returned r = inr (MiniJSON.entry 1 "A") ∧
        notified r = [1%nat]) ∧
  ¬ (∀ l, l ∈ registered "A" MiniJSON.three_listeners → l ∈ [1%nat]).
Proof.
  split_and!; [vm_compute; reflexivity| |].
  - eexists. split_and!; vm_compute; reflexivity.
  - intros H. specialize (H 2%nat).
    assert (2%nat ∈ [1%nat]) as Hin by (apply H; vm_compute; repeat constructor).
    apply list_elem_of_singleton in Hin. discriminate.
Qed.


(** C7 on the code.  A listener is registered for a type and unsubscribed;
    a second listener is registered for the same type; the first
    unsubscribe function is called once more.  The second listener is then
    registered for nothing, although it never unsubscribed: the second
    call removed from the map the set made for it. *)
Lemma unsubscribe_again_drops_newer_listener :
  let '(u1, st1) := subscribeType "A" 1%nat MiniJSON.fresh in
  let st2 := call_unsubscribe u1 st1 in
  let '(u2, st3) := subscribeType "A" 2%nat st2 in
  let st4 := call_unsubscribe u1 st3 in
  registered "A" st1 = [1%nat] ∧
  registered "A" st2 = [] ∧
  registered "A" st3 = [2%nat] ∧
  registered "A" st4 = [] ∧
  notified <$> append MiniJSON.stringify MiniJSON.quiet 3 1700000000001 None
                 "A" MiniJSON.Null st3 None = Some [2%nat] ∧
  notified <$> append MiniJSON.stringify MiniJSON.quiet 3 1700000000001 None
                 "A" MiniJSON.Null st4 None = Some [].
Proof. vm_compute. done. Qed.

(** ** Fan-out over sets that change meanwhile *)

Section LiveSets.

Context {T : Type}.
Variable body : listener → EventLogEntry T → reaction.
Variable ty : string.
Variable tSet : option nat.
Variable entry : EventLogEntry T.

Implicit Types (st : EventLog) (f fn l : listener) (r : setref)
  (got called : list listener) (s cur : JS.Set_ listener) (a : action).

Local Abbreviation harmless' := (harmless body ty tSet entry).
Local Abbreviation tracks' := (tracks body entry).
Local Abbreviation slot_step' := (slot_step body entry).

Lemma harmless_mono called called' a :
  called ⊆ called' → harmless' called a → harmless' called' a.
Proof.
  intros Hsub. destruct a as [l|ty' l|[l|set ty' l]|]; simpl; try done.
  - apply Hsub.
  - intros [? ?]. split; [by apply Hsub|done].
Qed.

(** Every set is left as it is by a harmless action, or gets a listener
    that calls nothing, or loses one of those done. *)
Lemma harmless_slot_step called a st r :
  harmless' called a → slot_step' called (slots r st) (slots r (perform a st)).
Proof.
  destruct a as [l|ty' l|[l|set ty' l]|]; simpl; intros Ha; [| | | |done].
  - destruct r; [|by left]. right; left. by exists l.
  - unfold subscribeType. destruct r as [|set']; simpl.
    { left. by destruct (st_typeListeners st !! ty'). }
    destruct (st_typeListeners st !! ty') as [set|]; simpl.
    + destruct (decide (set = set')) as [->|Hne].
      * rewrite list_lookup_alter_eq.
        destruct (st_sets st !! set') as [s|]; simpl; [|by left].
        right; left. by exists l.
      * left. by rewrite list_lookup_alter_ne.
    + destruct (decide (length (st_sets st) = set')) as [<-|Hne].
      * rewrite list_lookup_alter_eq, lookup_app_r, Nat.sub_diag by done. simpl.
        rewrite lookup_ge_None_2 by done. right; left. by exists l.
      * rewrite list_lookup_alter_ne by done. left.
        destruct (decide (set' < length (st_sets st))%nat).
        -- by rewrite lookup_app_l.
        -- rewrite !lookup_ge_None_2; [done|lia|]. rewrite length_app. simpl. lia.
  - destruct r; [|by left]. right; right. by exists l.
  - destruct Ha as [Hl _].
    assert (slot_step' called (slots r st)
              (slots r (with_sets (alter (JS.delete l) set (st_sets st)) st))) as H.
    { destruct r as [|set']; [by left|]. simpl.
      destruct (decide (set = set')) as [->|Hne].
      - rewrite list_lookup_alter_eq.
        destruct (st_sets st !! set') as [s|]; simpl; [|by left].
        right; right. by exists l.
      - left. by rewrite list_lookup_alter_ne. }
    destruct (alter _ set (st_sets st) !! set); [|done].
    case_bool_decide; [|done]. by destruct r.
Qed.

Lemma slot_step_length called s s' :
  slot_step' called s s' → (length s' ≤ length s + 1)%nat.
Proof.
  intros [->|[(l & _ & ->)|(l & _ & ->)]]; [lia| |].
  - unfold JS.add. destruct (JS.has l s); [lia|]. rewrite length_app. simpl. lia.
  - unfold JS.delete. rewrite length_fmap. lia.
Qed.

Lemma slot_step_members called s s' l :
  slot_step' called s s' → l ∈ JS.members s' →
  l ∈ JS.members s ∨ calls (body l entry) = [].
Proof.
  intros [->|[(l' & Hq & ->)|(l' & _ & ->)]] Hl; [by left| |].
  - unfold JS.add in Hl. destruct (JS.has l' s); [by left|].
    rewrite members_app, elem_of_app in Hl. destruct Hl as [?|Hl]; [by left|].
    apply list_elem_of_singleton in Hl as ->. by right.
  - left. apply elem_of_members in Hl. apply elem_of_members. by eapply in_delete.
Qed.

Lemma tracks_slot_step called index s0 s s' :
  slot_step' called s s' → tracks' called index s0 s → tracks' called index s0 s'.
Proof.
  intros [->|[(l' & Hq & ->)|(l' & Hl' & ->)]] [Ha Hb]; [done| |].
  - unfold JS.add. destruct (JS.has l' s); [done|]. split.
    + intros j l Hj. destruct (Ha j l Hj) as [?|[? Hcur]]; [by left|right].
      split; [done|]. by apply lookup_app_l_Some.
    + intros j l Hj. apply lookup_app_Some in Hj as [Hj|[_ Hj]]; [by apply Hb|].
      apply list_lookup_singleton_Some in Hj as [_ [= <-]]. by right.
  - unfold JS.delete. split.
    + intros j l Hj. destruct (Ha j l Hj) as [?|[? Hcur]]; [by left|].
      destruct (decide (l = l')) as [->|Hne]; [by left|right].
      split; [done|]. rewrite list_lookup_fmap, Hcur. simpl.
      rewrite decide_False; [done|congruence].
    + intros j l Hj. rewrite list_lookup_fmap in Hj.
      destruct (s !! j) as [slot|] eqn:E; [|done]. simpl in Hj.
      destruct (decide (slot = Some l')); [done|]. injection Hj as ->. by apply Hb.
Qed.

Lemma tracks_mono got got' index s0 cur :
  got ⊆ got' → tracks' got index s0 cur → tracks' got' index s0 cur.
Proof.
  intros Hsub [Ha Hb]. split; [|done].
  intros j l Hj. destruct (Ha j l Hj) as [?|?]; [left; by apply Hsub|by right].
Qed.

(** On to the next slot, once the member of the set of the beginning that
    had this slot has been called. *)
Lemma tracks_next got index s0 cur :
  (∀ l, s0 !! index = Some (Some l) → l ∈ got) →
  tracks' got index s0 cur → tracks' got (S index) s0 cur.
Proof.
  intros Hhere [Ha Hb]. split; [|done].
  intros j l Hj. destruct (Ha j l Hj) as [?|[Hle Hcur]]; [by left|].
  destruct (decide (j = index)) as [->|Hne]; [left; by apply Hhere|right].
  split; [lia|done].
Qed.

(** When the loop is past the last slot, every member of the set of the
    beginning has been called. *)
Lemma tracks_end got index s0 cur l :
  tracks' got index s0 cur → cur !! index = None → l ∈ JS.members s0 → l ∈ got.
Proof.
  intros [Ha _] Hend Hl. apply elem_of_members, list_elem_of_lookup in Hl as [j Hj].
  destruct (Ha j l Hj) as [?|[Hle Hcur]]; [done|].
  apply lookup_ge_None in Hend. apply lookup_lt_Some in Hcur. lia.
Qed.

(** The set the map gives for [ty] after an action is the one it gave
    before, or a set just made. *)
Lemma perform_type_entry a st set' :
  st_typeListeners (perform a st) !! ty = Some set' →
  st_typeListeners st !! ty = Some set' ∨
  (st_typeListeners st !! ty = None ∧ slots (TypeSet set') st = []).
Proof.
  destruct a as [l|ty' l|[l|set ty' l]|]; simpl; [by left| |by left| |].
  - unfold subscribeType.
    destruct (st_typeListeners st !! ty') as [set|] eqn:E; simpl; [by left|].
    destruct (decide (ty' = ty)) as [->|Hne].
    + rewrite lookup_insert_eq. intros [= <-]. right. split; [done|].
      by rewrite lookup_ge_None_2.
    + rewrite lookup_insert_ne by done. by left.
  - destruct (alter _ set (st_sets st) !! set); [|by left].
    case_bool_decide; [|by left]. simpl.
    intros [_ ?]%lookup_delete_Some. by left.
  - by rewrite lookup_empty.
Qed.

Lemma perform_keeps_entry called a st set :
  harmless' called a → tSet = Some set → st_typeListeners st !! ty = Some set →
  st_typeListeners (perform a st) !! ty = Some set ∨
  (st_typeListeners (perform a st) !! ty = None ∧
   JS.members (slots (TypeSet set) (perform a st)) = []).
Proof.
  intros Ha HtSet Hmap.
  destruct a as [l|ty' l|[l|set1 ty' l]|]; simpl in *; [by left| |by left| |done].
  - unfold subscribeType.
    destruct (st_typeListeners st !! ty') as [set1|] eqn:E; simpl; [by left|].
    rewrite lookup_insert_ne by congruence. by left.
  - destruct Ha as [_ Hty].
    destruct (alter _ set1 (st_sets st) !! set1) as [s|] eqn:E; [|by left].
    case_bool_decide as Hsize; [|by left]. simpl.
    destruct (decide (ty' = ty)) as [->|Hne].
    + right. rewrite lookup_delete_eq. split; [done|].
      assert (set1 = set) as -> by (specialize (Hty eq_refl); congruence).
      rewrite E. simpl. by apply nil_length_inv.
    + left. by rewrite lookup_delete_ne.
Qed.

Lemma type_side_mono t0 got got' st :
  got ⊆ got' → type_side body ty tSet t0 entry got st →
  type_side body ty tSet t0 entry got' st.
Proof.
  intros Hsub [(set & ? & ? & Htr)|[Hall Hq]].
  - left. exists set. split_and!; [done..|]. by eapply tracks_mono.
  - right. split; [|done]. intros l Hl. by apply Hsub, Hall.
Qed.

Lemma type_side_perform t0 called a st :
  harmless' called a → type_side body ty tSet t0 entry called st →
  type_side body ty tSet t0 entry called (perform a st).
Proof.
  intros Ha [(set & HtSet & Hmap & Htr)|[Hall Hq]].
  - pose proof (tracks_slot_step _ _ _ _ _
                  (harmless_slot_step called a st (TypeSet set) Ha) Htr) as Htr'.
    destruct (perform_keeps_entry called a st set Ha HtSet Hmap) as [Hmap'|[Hmap' Hnone]].
    + left. by exists set.
    + right. split.
      * intros l Hl. apply elem_of_members, list_elem_of_lookup in Hl as [j Hj].
        destruct Htr' as [Ha' _]. destruct (Ha' j l Hj) as [?|[_ Hcur]]; [done|].
        apply list_elem_of_lookup_2, elem_of_members in Hcur.
        rewrite Hnone in Hcur. by apply elem_of_nil in Hcur.
      * unfold typeSet_of. rewrite Hmap'. intros l Hl. by apply elem_of_nil in Hl.
  - right. split; [done|]. intros l. unfold typeSet_of.
    destruct (st_typeListeners (perform a st) !! ty) as [set'|] eqn:E;
      [|intros Hl; by apply elem_of_nil in Hl].
    intros Hl.
    destruct (slot_step_members _ _ _ _
                (harmless_slot_step called a st (TypeSet set') Ha) Hl) as [Hl'|?]; [|done].
    destruct (perform_type_entry a st set' E) as [Hmap|[_ Hnil]].
    + apply Hq. unfold typeSet_of. by rewrite Hmap.
    + rewrite Hnil in Hl'. by apply elem_of_nil in Hl'.
Qed.

Lemma typeSet_of_length called a st :
  harmless' called a →
  (length (typeSet_of ty (perform a st)) ≤ length (typeSet_of ty st) + 1)%nat.
Proof.
  intros Ha. unfold typeSet_of at 1.
  destruct (st_typeListeners (perform a st) !! ty) as [set'|] eqn:E; [|simpl; lia].
  pose proof (slot_step_length _ _ _
                (harmless_slot_step called a st (TypeSet set') Ha)) as Hlen.
  destruct (perform_type_entry a st set' E) as [Hmap|[_ Hnil]].
  - unfold typeSet_of. by rewrite Hmap.
  - rewrite Hnil in Hlen. etrans; [exact Hlen|simpl; lia].
Qed.

(** Harmless actions done one after the other keep what each of them
    keeps, and add at most one to what each of them adds at most one to. *)
Lemma foldl_harmless (Q : EventLog → Prop) (m : EventLog → nat) called acts st :
  (∀ a st, harmless' called a → Q st → Q (perform a st)) →
  (∀ a st, harmless' called a → (m (perform a st) ≤ m st + 1)%nat) →
  (∀ a, a ∈ acts → harmless' called a) →
  Q st →
  Q (foldl (λ st a, perform a st) st acts) ∧
  (m (foldl (λ st a, perform a st) st acts) ≤ m st + length acts)%nat.
Proof.
  intros HQ Hm. revert st. induction acts as [|a acts IH]; intros st Hacts Hst.
  { simpl. split; [done|lia]. }
  simpl. destruct (IH (perform a st)) as [HQ' Hm'].
  - intros a' Ha'. apply Hacts. by right.
  - apply HQ; [|done]. apply Hacts. by left.
  - split; [done|]. specialize (Hm a st (Hacts a ltac:(by left))). lia.
Qed.

Lemma weight_cons_Some fn s :
  weight body entry (Some fn :: s)
  = (length (calls (body fn entry)) + weight body entry s)%nat.
Proof. done. Qed.

Lemma weight_cons_None s : weight body entry (None :: s) = weight body entry s.
Proof. done. Qed.


Lemma weight_drop_S index s :
  (weight body entry (drop (S index) s) ≤ weight body entry (drop index s))%nat.
Proof.
  destruct (s !! index) as [slot|] eqn:E.
  - rewrite (drop_S _ _ _ E). destruct slot; [rewrite weight_cons_Some; lia|done].
  - apply lookup_ge_None in E. by rewrite !drop_ge by lia.
Qed.

Lemma fan_out_unfold fuel r index st got :
  fan_out body fuel entry r index st got
  = match slots r st !! index with
    | None => Some (st, got)
    | Some slot =>
        match fuel with
        | O => None
        | S fuel =>
            match slot with
            | None => fan_out body fuel entry r (S index) st got
            | Some fn =>
                fan_out body fuel entry r (S index)
                  (foldl (λ st a, perform a st) st (calls (body fn entry))) (got ++ [fn])
            end
        end
    end.
Proof. by destruct fuel. Qed.

Section Phase.

Variable r : setref.
Variable s0 : JS.Set_ listener.
Variable before : list listener.
Variable Q : list listener → EventLog → Prop.
Variable m : EventLog → nat.

Hypothesis Q_perform : ∀ called a st, harmless' called a → Q called st → Q called (perform a st).
Hypothesis Q_mono : ∀ got got' st, got ⊆ got' → Q got st → Q got' st.
Hypothesis m_perform :
  ∀ called a st, harmless' called a → (m (perform a st) ≤ m st + 1)%nat.
Hypothesis body_harmless :
  ∀ j fn a, s0 !! j = Some (Some fn) → a ∈ calls (body fn entry) →
            harmless' (before ++ JS.members (take (S j) s0)) a.

(** One loop of the fan-out, over the set [r] that was [s0] when the
    fan-out began: with fuel for the slots there are and for those the
    listeners may add, it ends, and it has then called every member of
    [s0]. *)
Lemma fan_out_reaches fuel index st got :
  before ⊆ got →
  tracks' got index s0 (slots r st) →
  Q got st →
  (length (slots r st) - index + weight body entry (drop index s0) ≤ fuel)%nat →
  ∃ st' got',
    fan_out body fuel entry r index st got = Some (st', got') ∧
    got ⊆ got' ∧
    (∀ l, l ∈ JS.members s0 → l ∈ got') ∧
    Q got' st' ∧
    (m st' ≤ m st + weight body entry (drop index s0))%nat.
Proof.
  revert index st got.
  induction fuel as [|fuel IH]; intros index st got Hbefore Htr HQ Hfuel;
    rewrite fan_out_unfold; destruct (slots r st !! index) as [slot|] eqn:E.
  - apply lookup_lt_Some in E. lia.
  - exists st, got. split_and!; [done..| |done|lia].
    intros l. by eapply tracks_end.
  - pose proof (lookup_lt_Some _ _ _ E) as Hlt.
    pose proof (weight_drop_S index s0) as Hw.
    destruct slot as [fn|].
    + set (called := got ++ [fn]).
      assert (got ⊆ called) as Hgot by (intros x ?; apply elem_of_app; by left).
      assert (∀ l, s0 !! index = Some (Some l) → l ∈ called) as Hhere.
      { intros l Hl. apply elem_of_app. destruct Htr as [Ha _].
        destruct (Ha index l Hl) as [?|[_ Hcur]]; [by left|right].
        rewrite E in Hcur. injection Hcur as ->. by apply list_elem_of_singleton. }
      assert (before ++ JS.members (take (S index) s0) ⊆ called) as Hsub.
      { intros x [Hx|Hx]%elem_of_app; [by apply Hgot, Hbefore|].
        apply elem_of_members, list_elem_of_lookup in Hx as [j Hj].
        apply lookup_take_Some in Hj as [Hj Hle].
        destruct Htr as [Ha _]. destruct (Ha j x Hj) as [?|[Hge Hcur]]; [by apply Hgot|].
        apply Hhere. by replace index with j by lia. }
      assert ((∀ a, a ∈ calls (body fn entry) → harmless' called a) ∧
              (length (calls (body fn entry)) + weight body entry (drop (S index) s0)
               ≤ weight body entry (drop index s0))%nat) as [Hacts Hcost].
      { destruct Htr as [_ Hb]. destruct (Hb index fn E) as [Horig|Hquiet].
        - split.
          + intros a Ha. eapply harmless_mono; [exact Hsub|]. by eapply body_harmless.
          + rewrite (drop_S _ _ _ Horig), weight_cons_Some. lia.
        - rewrite Hquiet. split; [|simpl; lia]. intros a Ha. by apply elem_of_nil in Ha. }
      destruct (foldl_harmless
                  (λ st, tracks' called index s0 (slots r st) ∧ Q called st)
                  (λ st, length (slots r st)) called (calls (body fn entry)) st)
        as [[Htr1 HQ1] Hlen1]; [| |done| |].
      { intros a st0 Ha [? ?]. split; [|by apply Q_perform].
        eapply tracks_slot_step; [by apply harmless_slot_step|done]. }
      { intros a st0 Ha. eapply slot_step_length. by apply harmless_slot_step. }
      { split; [by apply (tracks_mono got)|by apply (Q_mono got)]. }
      destruct (foldl_harmless (λ _, True) m called (calls (body fn entry)) st)
        as [_ Hm1]; [done|by apply m_perform|done|done|].
      set (st1 := foldl (λ st a, perform a st) st (calls (body fn entry))) in *.
      destruct (IH (S index) st1 called)
        as (st' & got' & Hrun & Hsub' & Hall & HQ' & Hm').
      { intros x Hx. by apply Hgot, Hbefore. }
      { by apply tracks_next. }
      { done. }
      { simpl in Hlen1. lia. }
      exists st', got'. split_and!; [done| |done|done|lia].
      intros x Hx. by apply Hsub', Hgot.
    + assert (∀ l, s0 !! index = Some (Some l) → l ∈ got) as Hhere.
      { intros l Hl. destruct Htr as [Ha _].
        destruct (Ha index l Hl) as [?|[_ Hcur]]; [done|]. by rewrite E in Hcur. }
      destruct (IH (S index) st got)
        as (st' & got' & Hrun & Hsub' & Hall & HQ' & Hm');
        [done|by apply tracks_next|done|lia|].
      exists st', got'. split_and!; [done..|lia].
  - exists st, got. split_and!; [done..| |done|lia].
    intros l. by eapply tracks_end.
Qed.

End Phase.


End LiveSets.

Section Robust.

Context {T : Type}.
Variable JSON_stringify : EventLogEntry T → throws string.
Variable body : listener → EventLogEntry T → reaction.

Implicit Types (st : EventLog) (fn l : listener) (s : JS.Set_ listener).

Lemma tracks_start (entry : EventLogEntry T) s : tracks body entry [] 0 s s.
Proof.
  split.
  - intros j l Hj. right. split; [lia|done].
  - intros j l Hj. by left.
Qed.

Lemma members_middle s j fn :
  s !! j = Some (Some fn) →
  JS.members s = JS.members (take j s) ++ fn :: JS.members (drop (S j) s) ∧
  JS.members (take (S j) s) = JS.members (take j s) ++ [fn].
Proof.
  intros Hj. split.
  - rewrite <- (take_drop_middle s j (Some fn) Hj) at 1. by rewrite members_app.
  - by rewrite (take_S_r s j (Some fn) Hj), members_app.
Qed.

(** C8, amended.  The loops of the fan-out run over the sets themselves,
    not over copies.  When the listeners called for a record unsubscribe
    only themselves or listeners already called for it, or subscribe
    listeners that call nothing on the log, every listener registered when
    the fan-out began is called for the record and [append] succeeds.
    (No unsubscribe function that [subscribeType] returned for the type
    of the record and for an earlier set of that type is called; the fuel
    covers the slots of both sets and the calls of their members.) *)
Theorem append_reaches_registered_listeners fuel now ty p st file json :
  let entry := {| seq := lastSeq st + 1; ts := now; type := ty; payload := p |} in
  JSON_stringify entry = inr json →
  (∀ before fn after a,
     registered ty st = before ++ fn :: after →
     a ∈ calls (body fn entry) →
     harmless body ty (st_typeListeners st !! ty) entry (before ++ [fn]) a) →
  (length (st_listeners st) + length (typeSet_of ty st) +
   weight body entry (st_listeners st) + weight body entry (typeSet_of ty st)
   ≤ fuel)%nat →
  ∃ r, append JSON_stringify body fuel now None ty p st file = Some r ∧
       returned r = inr entry ∧
       ∀ l, l ∈ registered ty st → l ∈ notified r.
Proof.
  intros entry Ejson Hbody Hfuel.
  set (tSet := st_typeListeners st !! ty) in *.
  set (s0 := st_listeners st) in *.
  set (t0 := typeSet_of ty st) in *.
  set (st1 := with_seq (st_seq st + 1) st).
  assert (registered ty st = JS.members s0 ++ JS.members t0) as Hreg by done.
  destruct (fan_out_reaches body ty tSet entry Listeners s0 []
              (type_side body ty tSet t0 entry) (λ st, length (typeSet_of ty st))
              (type_side_perform body ty tSet entry t0)
              (type_side_mono body ty tSet entry t0)
              (typeSet_of_length body ty tSet entry)) with (fuel := fuel) (index := 0%nat)
              (st := st1) (got := @nil listener)
    as (st' & got1 & Hrun1 & _ & Hall1 & Hside & Hlen).
  { intros j fn a Hj Ha. destruct (members_middle s0 j fn Hj) as [Hmid ->].
    apply (Hbody _ fn (JS.members (drop (S j) s0) ++ JS.members t0) a); [|done].
    by rewrite Hreg, Hmid, <- app_assoc. }
  { done. }
  { apply tracks_start. }
  { unfold type_side. fold tSet. destruct tSet as [set|] eqn:E.
    - left. exists set. split_and!; [done..|].
      replace t0 with (slots (TypeSet set) st1); [apply tracks_start|].
      unfold t0, typeSet_of. fold tSet. by rewrite E.
    - right. assert (t0 = []) as Ht0 by (unfold t0, typeSet_of; fold tSet; by rewrite E).
      split.
      + rewrite Ht0. intros l Hl. by apply elem_of_nil in Hl.
      + replace (typeSet_of ty st1) with t0 by done. rewrite Ht0.
        intros l Hl. by apply elem_of_nil in Hl. }
  { simpl. fold s0. rewrite drop_0. lia. }
  assert (length (typeSet_of ty st') ≤ length t0 + weight body entry s0)%nat as Hlen'.
  { etrans; [exact Hlen|]. by rewrite drop_0. }
  unfold append. simpl.
  change {| seq := st_seq st + 1; ts := now; type := ty; payload := p |} with entry.
  rewrite Ejson. simpl.
  change (with_seq (st_seq st + 1) st) with st1. rewrite Hrun1. simpl.
  destruct (st_typeListeners st' !! ty) as [tSet'|] eqn:Emap.
  - assert (∃ st2 got2, fan_out body fuel entry (TypeSet tSet') 0 st' got1 = Some (st2, got2)
            ∧ got1 ⊆ got2 ∧ ∀ l, l ∈ JS.members t0 → l ∈ got2)
      as (st2 & got2 & Hrun2 & Hsub & Hall2).
    { assert (∀ called a st0, harmless body ty tSet entry called a →
                (0 ≤ 0 + 1)%nat) as Hm by (intros; lia).
      assert (typeSet_of ty st' = slots (TypeSet tSet') st') as Hset
        by (unfold typeSet_of; by rewrite Emap).
      destruct Hside as [(set & HtSet & Hmap & Htr)|[Hall Hquiet]].
      - assert (tSet' = set) as -> by congruence.
        destruct (fan_out_reaches body ty tSet entry (TypeSet set) t0 (JS.members s0)
                    (λ _ _, True) (λ _, 0%nat) (λ _ _ _ _ _, I) (λ _ _ _ _ _, I) Hm)
          with (fuel := fuel) (index := 0%nat) (st := st') (got := got1)
          as (st2 & got2 & Hrun2 & Hsub & Hall2 & _).
        + intros j fn a Hj Ha. destruct (members_middle t0 j fn Hj) as [Hmid ->].
          rewrite app_assoc.
          apply (Hbody _ fn (JS.members (drop (S j) t0)) a); [|done].
          by rewrite Hreg, Hmid, <- app_assoc.
        + done.
        + done.
        + done.
        + rewrite drop_0, Nat.sub_0_r, <- Hset. lia.
        + by exists st2, got2.
      - destruct (fan_out_reaches body ty tSet entry (TypeSet tSet') [] []
                    (λ _ _, True) (λ _, 0%nat) (λ _ _ _ _ _, I) (λ _ _ _ _ _, I) Hm)
          with (fuel := fuel) (index := 0%nat) (st := st') (got := got1)
          as (st2 & got2 & Hrun2 & Hsub & _).
        + intros j fn a Hj. by rewrite lookup_nil in Hj.
        + intros l Hl. by apply elem_of_nil in Hl.
        + split; [intros j l Hj; by rewrite lookup_nil in Hj|].
          intros j l Hj. right. apply Hquiet. rewrite Hset.
          by apply list_elem_of_lookup_2, elem_of_members in Hj.
        + done.
        + rewrite <- Hset. simpl. unfold weight. simpl. lia.
        + exists st2, got2. split_and!; [done..|]. intros l Hl. by apply Hsub, Hall. }
    rewrite Hrun2. simpl. eexists. split; [done|]. split; [done|]. simpl.
    intros l. rewrite Hreg, elem_of_app. intros [Hl|Hl]; [by apply Hsub, Hall1|by apply Hall2].
  - eexists. split; [done|]. split; [done|]. simpl.
    intros l. rewrite Hreg, elem_of_app. intros [Hl|Hl]; [by apply Hall1|].
    destruct Hside as [(set & HtSet & Hmap & Htr)|[Hall Hquiet]]; [congruence|by apply Hall].
Qed.

End Robust.

(** C8 as it is stated fails on the code: listeners 1 and 2 are in the
    global set when the fan-out begins; listener 1, while it is called,
    unsubscribes listener 2, which is then not called for the record. *)
Lemma fan_out_is_not_a_snapshot :
  let st := snd (subscribe 2%nat (snd (subscribe 1%nat MiniJSON.fresh))) in
  registered "A" st = [1; 2]%nat ∧
  notified <$> append MiniJSON.stringify MiniJSON.one_removes_two 2 1700000000001 None
                 "A" MiniJSON.Null st None = Some [1%nat] ∧
  ¬ (∀ l, l ∈ registered "A" st → l ∈ [1%nat]).
Proof.
  split_and!; [vm_compute; reflexivity..|].
  intros H. specialize (H 2%nat). vm_compute in H.
  assert (2%nat ∈ [1%nat]) as Hin by (apply H; repeat constructor).
  apply list_elem_of_singleton in Hin. discriminate.
Qed.

Lemma append_reaches_registered_listeners_witness :
  ∃ r, append MiniJSON.stringify MiniJSON.each_removes_itself 6 1700000000001 None
         "A" MiniJSON.Null MiniJSON.three_listeners None = Some r ∧
       returned r = inr (MiniJSON.entry 1 "A") ∧
       ∀ l, l ∈ registered "A" MiniJSON.three_listeners → l ∈ notified r.
Proof.
  apply (append_reaches_registered_listeners MiniJSON.stringify MiniJSON.each_removes_itself
           6 1700000000001 "A" MiniJSON.Null MiniJSON.three_listeners None
           (MiniJSON.json_of (MiniJSON.entry 1 "A"))).
  - vm_compute. reflexivity.
  - intros before fn after a Hreg Ha.
    apply list_elem_of_singleton in Ha as ->. simpl.
    apply elem_of_app. right. by apply list_elem_of_singleton.
  - vm_compute. lia.
Defined.

(** ** Further properties of the event log *)

Section SetMembers.

Implicit Types (s : JS.Set_ listener) (l : listener).

Lemma members_cons_Some l s : JS.members (Some l :: s) = l :: JS.members s.
Proof. done. Qed.

Lemma members_cons_None s : JS.members (None :: s) = JS.members s.
Proof. done. Qed.

(** [Set.prototype.add] puts a new value last and ignores a value that is
    there. *)
Lemma members_add l s :
  JS.members (JS.add l s)
  = if bool_decide (l ∈ JS.members s) then JS.members s else JS.members s ++ [l].
Proof.
  unfold JS.add, JS.has. rewrite <- (bool_decide_ext _ _ (elem_of_members l s)).
  case_bool_decide; [done|]. by rewrite members_app.
Qed.

(** [Set.prototype.delete] keeps the other values in their order. *)
Lemma members_delete l s :
  JS.members (JS.delete l s) = filter (λ x, x ≠ l) (JS.members s).
Proof.
  induction s as [|[x|] s IH]; [done| |].
  - change (JS.delete l (Some x :: s))
      with ((if decide (Some x = Some l) then None else Some x) :: JS.delete l s).
    rewrite members_cons_Some, filter_cons.
    destruct (decide (Some x = Some l)) as [[= ->]|Hne].
    + rewrite members_cons_None, decide_False by (intros H; by apply H). done.
    + rewrite members_cons_Some, decide_True by congruence. by rewrite IH.
  - change (JS.delete l (None :: s)) with (None :: JS.delete l s).
    by rewrite !members_cons_None.
Qed.

Lemma filter_ne_snoc l (ms : list listener) :
  filter (λ x, x ≠ l) (ms ++ [l]) = filter (λ x, x ≠ l) ms.
Proof.
  rewrite filter_app, filter_cons, decide_False by (intros H; by apply H).
  by rewrite filter_nil, app_nil_r.
Qed.

Lemma members_delete_add l s :
  JS.members (JS.delete l (JS.add l s)) = filter (λ x, x ≠ l) (JS.members s).
Proof.
  rewrite members_delete, members_add. case_bool_decide; [done|apply filter_ne_snoc].
Qed.

End SetMembers.

Section Subscriptions.

Implicit Types (st : EventLog) (l : listener) (ty : string).

(** X1.  [subscribe] registers the listener once, after those that are there;
    the function it returns removes the listener and leaves the others in
    their order, and neither touches the counter or the sets by type. *)
Theorem subscribe_then_unsubscribe l st :
  let st1 := snd (subscribe l st) in
  let st2 := call_unsubscribe (fst (subscribe l st)) st1 in
  JS.members (st_listeners st1)
  = (if bool_decide (l ∈ JS.members (st_listeners st))
     then JS.members (st_listeners st) else JS.members (st_listeners st) ++ [l]) ∧
  snd (subscribe l st1) = st1 ∧
  JS.members (st_listeners st2) = filter (λ x, x ≠ l) (JS.members (st_listeners st)) ∧
  (∀ ty, JS.members (typeSet_of ty st2) = JS.members (typeSet_of ty st)) ∧
  lastSeq st2 = lastSeq st.
Proof.
  simpl. split_and!; [apply members_add| |apply members_delete_add|done|done].
  unfold subscribe, with_listeners. simpl. f_equal.
  unfold JS.add at 1. unfold JS.has.
  rewrite bool_decide_true; [done|].
  apply elem_of_members. rewrite members_add.
  case_bool_decide; [done|]. apply elem_of_app. right. by apply list_elem_of_singleton.
Qed.

(** The registry stays well formed under every call. *)
Lemma perform_wf (a : action) st : registry_wf st → registry_wf (perform a st).
Proof.
  intros [Halloc Hinj].
  destruct a as [l|ty l|[l|set ty l]|]; simpl.
  - done.
  - unfold subscribeType.
    destruct (st_typeListeners st !! ty) as [set|] eqn:E; simpl.
    + split; simpl; [|done]. intros ty' set' H. rewrite length_alter. by eapply Halloc.
    + split; simpl.
      * intros ty' set'. rewrite length_alter, length_app. simpl.
        destruct (decide (ty = ty')) as [->|Hne].
        -- rewrite lookup_insert_eq. intros [= <-]. lia.
        -- rewrite lookup_insert_ne by done. intros H%Halloc. lia.
      * intros ty1 ty2 set'.
        destruct (decide (ty = ty1)) as [<-|Hne1], (decide (ty = ty2)) as [<-|Hne2];
          rewrite ?lookup_insert_eq, ?lookup_insert_ne by done; [done| | |by apply Hinj].
        -- intros [= <-] H%Halloc. lia.
        -- intros H%Halloc [= <-]. lia.
  - done.
  - assert (registry_wf (with_sets (alter (JS.delete l) set (st_sets st)) st)) as Hwf.
    { split; simpl; [|done]. intros ty' set' H. rewrite length_alter. by eapply Halloc. }
    destruct (alter _ set (st_sets st) !! set); [|done].
    case_bool_decide; [|done]. destruct Hwf as [Halloc' Hinj']. split; simpl in *.
    + intros ty' set' [_ Hl]%lookup_delete_Some. by eapply Halloc'.
    + intros ty1 ty2 set' [_ H1]%lookup_delete_Some [_ H2]%lookup_delete_Some.
      by eapply Hinj.
  - split; simpl; intros *; by rewrite lookup_empty.
Qed.

End Subscriptions.

Section TypeSubscriptions.

Implicit Types (st : EventLog) (l : listener) (ty : string).

Lemma typeSet_of_Some ty st set :
  st_typeListeners st !! ty = Some set →
  typeSet_of ty st = default [] (st_sets st !! set).
Proof. unfold typeSet_of. by intros ->. Qed.

Lemma typeSet_of_None ty st :
  st_typeListeners st !! ty = None → typeSet_of ty st = [].
Proof. unfold typeSet_of. by intros ->. Qed.

(** The set of a type whose address is not [set] is the same in a heap
    changed at [set] only. *)
Lemma typeSet_of_other ty st st' set f :
  registry_wf st →
  st_typeListeners st' !! ty = st_typeListeners st !! ty →
  st_typeListeners st !! ty ≠ Some set →
  (∃ tail, st_sets st' = alter f set (st_sets st ++ tail)) →
  typeSet_of ty st' = typeSet_of ty st.
Proof.
  intros [Halloc _] Hmap Hne [tail Hheap]. unfold typeSet_of. rewrite Hmap.
  destruct (st_typeListeners st !! ty) as [set'|] eqn:E; [|done].
  simpl. rewrite Hheap, list_lookup_alter_ne by congruence.
  by rewrite lookup_app_l by by eapply Halloc.
Qed.

(** [subscribeType] and the function it returns, on a well-formed
    registry. *)
Lemma subscribeType_unsubscribe_wf ty l st :
  registry_wf st →
  let st1 := snd (subscribeType ty l st) in
  let st2 := call_unsubscribe (fst (subscribeType ty l st)) st1 in
  JS.members (typeSet_of ty st1)
  = (if bool_decide (l ∈ JS.members (typeSet_of ty st))
     then JS.members (typeSet_of ty st) else JS.members (typeSet_of ty st) ++ [l]) ∧
  JS.members (typeSet_of ty st2) = filter (λ x, x ≠ l) (JS.members (typeSet_of ty st)) ∧
  (∀ ty', ty' ≠ ty →
     typeSet_of ty' st1 = typeSet_of ty' st ∧ typeSet_of ty' st2 = typeSet_of ty' st) ∧
  (st_typeListeners st2 !! ty = None
   ↔ filter (λ x, x ≠ l) (JS.members (typeSet_of ty st)) = []) ∧
  st_listeners st2 = st_listeners st ∧
  lastSeq st2 = lastSeq st.
Proof.
  intros Hwf. pose proof Hwf as [Halloc Hinj]. unfold subscribeType.
  destruct (st_typeListeners st !! ty) as [set|] eqn:E.
  - destruct (lookup_lt_is_Some_2 (st_sets st) set) as [s Hs]; [by eapply Halloc|].
    rewrite (typeSet_of_Some ty st set E), Hs. simpl.
    rewrite !list_lookup_alter_eq, Hs. simpl.
    assert (JS.size (JS.delete l (JS.add l s))
            = length (filter (λ x, x ≠ l) (JS.members s))) as Hsize.
    { unfold JS.size. by rewrite members_delete_add. }
    split_and!.
    + erewrite typeSet_of_Some by done. simpl.
      rewrite list_lookup_alter_eq, Hs. apply members_add.
    + case_bool_decide as Hz.
      * rewrite typeSet_of_None by (simpl; apply lookup_delete_eq).
        rewrite Hsize in Hz. symmetry. by apply nil_length_inv.
      * erewrite typeSet_of_Some by done. simpl.
        rewrite !list_lookup_alter_eq, Hs. apply members_delete_add.
    + intros ty' Hne.
      assert (st_typeListeners st !! ty' ≠ Some set) as Hother.
      { intros E'. apply Hne. by eapply Hinj. }
      split.
      * eapply typeSet_of_other; [done|done|done|].
        exists []. simpl. by rewrite app_nil_r.
      * eapply typeSet_of_other; [done| |done|].
        -- case_bool_decide; simpl; [by rewrite lookup_delete_ne|done].
        -- exists []. case_bool_decide; simpl; by rewrite app_nil_r, list_alter_alter_eq.
    + rewrite Hsize. case_bool_decide as Hz; simpl.
      * rewrite lookup_delete_eq. split; [intros _; by apply nil_length_inv|done].
      * rewrite E. split; [done|]. intros Hnil. by rewrite Hnil in Hz.
    + by case_bool_decide.
    + by case_bool_decide.
  - rewrite (typeSet_of_None ty st E). simpl.
    rewrite !list_lookup_alter_eq, lookup_app_r, Nat.sub_diag by done. simpl.
    rewrite decide_True by done.
    change (JS.size (A := listener) [None]) with 0%nat.
    rewrite bool_decide_true by done. simpl.
    split_and!.
    + erewrite typeSet_of_Some by (simpl; apply lookup_insert_eq). simpl.
      by rewrite list_lookup_alter_eq, lookup_app_r, Nat.sub_diag.
    + by rewrite typeSet_of_None by (simpl; apply lookup_delete_eq).
    + intros ty' Hne.
      assert (st_typeListeners st !! ty' ≠ Some (length (st_sets st))) as Hother.
      { intros E'%Halloc. lia. }
      split.
      * eapply typeSet_of_other; [done| |done|].
        -- simpl. by rewrite lookup_insert_ne.
        -- by exists [[]].
      * eapply typeSet_of_other; [done| |done|].
        -- simpl. by rewrite lookup_delete_ne, lookup_insert_ne.
        -- exists [[]]. simpl. by rewrite list_alter_alter_eq.
    + by rewrite lookup_delete_eq.
    + done.
    + done.
Qed.

End TypeSubscriptions.

Section Reachable.

Context {T : Type}.
Variable JSON_parse : string → option (EventLogEntry T).
Variable JSON_stringify : EventLogEntry T → throws string.
Variable body : listener → EventLogEntry T → reaction.

Implicit Types (st : EventLog) (l f : listener) (ty : string).

Local Abbreviation append' := (append JSON_stringify body).
Local Abbreviation run' := (run JSON_stringify body).

Lemma createEventLog_wf mkdir_fault read_fault file st :
  createEventLog JSON_parse mkdir_fault read_fault file = inr st → registry_wf st.
Proof.
  unfold createEventLog. destruct mkdir_fault; [done|].
  destruct (recoverLastSeq _ _ _); [done|]. intros [= <-].
  split; simpl; intros *; by rewrite lookup_empty.
Qed.

Lemma with_seq_wf n st : registry_wf st → registry_wf (with_seq n st).
Proof. done. Qed.

Lemma fan_out_wf fuel (entry : EventLogEntry T) r index st got st' got' :
  registry_wf st →
  fan_out body fuel entry r index st got = Some (st', got') →
  registry_wf st'.
Proof.
  revert index st got. induction fuel as [|fuel IH]; intros index st got Hwf; simpl.
  - destruct (slots r st !! index); [done|]. by intros [= <- _].
  - destruct (slots r st !! index) as [[fn|]|]; [| |by intros [= <- _]].
    + apply IH. unfold invoke. simpl. apply foldl_perform_preserves; [|done].
      intros a st0 _. apply perform_wf.
    + by apply IH.
Qed.

Lemma append_wf fuel now fault ty p st file r :
  registry_wf st → append' fuel now fault ty p st file = Some r →
  registry_wf (log_after r).
Proof.
  intros Hwf. unfold append. simpl.
  destruct (JSON_stringify _) as [err|json]; [by intros [= <-]|].
  destruct fault as [wf|]; simpl; [by intros [= <-]|].
  destruct (fan_out _ _ _ Listeners _ _ _) as [[st1 got1]|] eqn:E1; simpl; [|done].
  apply fan_out_wf in E1; [|done].
  destruct (st_typeListeners st1 !! ty) as [tSet|].
  - destruct (fan_out _ _ _ (TypeSet tSet) _ _ _) as [[st2 got2]|] eqn:E2; simpl; [|done].
    apply fan_out_wf in E2; [|done]. by intros [= <-].
  - by intros [= <-].
Qed.

Lemma run_wf fuel ops st file rs st' file' :
  registry_wf st → run' fuel ops st file = Some (rs, st', file') → registry_wf st'.
Proof.
  revert st file rs. induction ops as [|[c|a] ops IH]; intros st file rs Hwf; simpl.
  - by intros [= _ <- _].
  - destruct (append _ _ _ _ _ _ _ st file) as [r0|] eqn:E0; simpl; [|done].
    destruct (run _ _ _ _ _ _) as [[[rs0 st0] file0]|] eqn:Es; simpl; [|done].
    intros [= _ <- <-]. eapply IH; [|done]. by eapply append_wf.
  - apply IH. by apply perform_wf.
Qed.

(** X2.  On a log in any state that calls of its functions lead to:
    [subscribeType] puts the listener last in the set of its type, once;
    the function it returns, called next, takes exactly this listener out
    of that set and drops the map entry when no listener is left; neither
    of them touches the set of another type, the global set or the
    counter. *)
Theorem subscribeType_then_unsubscribe mkdir_fault read_fault file0 st0 fuel ops rs st
    file ty l :
  createEventLog JSON_parse mkdir_fault read_fault file0 = inr st0 →
  run' fuel ops st0 file0 = Some (rs, st, file) →
  let st1 := snd (subscribeType ty l st) in
  let st2 := call_unsubscribe (fst (subscribeType ty l st)) st1 in
  JS.members (typeSet_of ty st1)
  = (if bool_decide (l ∈ JS.members (typeSet_of ty st))
     then JS.members (typeSet_of ty st) else JS.members (typeSet_of ty st) ++ [l]) ∧
  JS.members (typeSet_of ty st2) = filter (λ x, x ≠ l) (JS.members (typeSet_of ty st)) ∧
  (∀ ty', ty' ≠ ty →
     typeSet_of ty' st1 = typeSet_of ty' st ∧ typeSet_of ty' st2 = typeSet_of ty' st) ∧
  (st_typeListeners st2 !! ty = None
   ↔ filter (λ x, x ≠ l) (JS.members (typeSet_of ty st)) = []) ∧
  st_listeners st2 = st_listeners st ∧
  lastSeq st2 = lastSeq st.
Proof.
  intros Hcreate Hrun. apply subscribeType_unsubscribe_wf.
  eapply run_wf; [|done]. by eapply createEventLog_wf.
Qed.

(** X3.  As long as the counter is a safe integer, every call of [append]
    takes the next number, whether it succeeds or not: the counter at the
    end is the one of the start plus the number of calls, and of two calls
    that succeed the later one returns a [seq] that is larger by the number
    of calls made from the one to the other. *)
Theorem append_seq_strictly_increasing fuel ops st file rs st' file' :
  JS.isSafeInteger (lastSeq st) →
  JS.isSafeInteger (lastSeq st + Z.of_nat (length rs)) →
  run' fuel ops st file = Some (rs, st', file') →
  lastSeq st' = lastSeq st + Z.of_nat (length rs) ∧
  ∀ (i j : nat) ri rj ei ej,
    (i < j)%nat → rs !! i = Some ri → rs !! j = Some rj →
    returned ri = inr ei → returned rj = inr ej →
    seq ei < seq ej ∧ seq ej - seq ei = Z.of_nat j - Z.of_nat i.
Proof.
  intros _ _ Hrun.
  destruct (run_seq JSON_stringify body _ _ _ _ _ _ _ Hrun) as [Hend Hall].
  split; [done|]. intros i j ri rj ei ej Hij Hi Hj Hei Hej.
  destruct (Hall i ri Hi) as [_ Hsi]. destruct (Hall j rj Hj) as [_ Hsj].
  rewrite (Hsi ei Hei), (Hsj ej Hej). lia.
Qed.

(** X4.  [_resetForTest] sets the counter to 0 and empties the listener sets
    before it removes the file, so it does so even when [unlink] throws.
    Without an I/O failure it returns and the file is gone, also when there
    was none; a failure other than ENOENT is thrown and the file stays.
    The next call of [append] that succeeds returns [seq] 1. *)
Theorem resetForTest_starts_over (unlink_fault : option Error) st file :
  let '(res, st', file') := _resetForTest unlink_fault st file in
  lastSeq st' = 0 ∧
  (∀ ty, registered ty st' = []) ∧
  (unlink_fault = None → res = inr () ∧ file' = None) ∧
  (∀ err, unlink_fault = Some err →
          res = (if isENOENT err then inr () else inl err) ∧ file' = file) ∧
  (∀ fuel now fault ty p file1 r entry,
     append' fuel now fault ty p st' file1 = Some r →
     returned r = inr entry → seq entry = 1).
Proof.
  assert (∀ ty, registered ty (close (with_seq 0 st)) = []) as Hnone.
  { intros ty. unfold registered, typeSet_of. simpl.
    by rewrite members_clear, lookup_empty. }
  assert (∀ fuel now fault ty p file1 r entry,
            append' fuel now fault ty p (close (with_seq 0 st)) file1 = Some r →
            returned r = inr entry → seq entry = 1) as Hnext.
  { intros fuel now fault ty p file1 r entry [_ Hr]%append_shape Hret.
    rewrite Hret in Hr. by destruct Hr as [-> _]. }
  unfold _resetForTest, unlink. destruct unlink_fault as [err|].
  - destruct (isENOENT err) eqn:E; (split_and!; [done|done|done| |done]);
      intros ? [= <-]; by rewrite E.
  - destruct file; (split_and!; [done|done|done| |done]); by intros.
Qed.

End Reachable.

(** ** Reading what was appended, and reading page by page *)

Section ReadMore.

Context {T : Type}.
Variable JSON_parse : string → option (EventLogEntry T).
Variable JSON_stringify : EventLogEntry T → throws string.
Variable body : listener → EventLogEntry T → reaction.

Local Abbreviation append' := (append JSON_stringify body).

Lemma read_unlimited (raw : string) (readOpts : ReadOpts) :
  opt_limit readOpts = None →
  read JSON_parse None (Some raw) readOpts
  = inr (filter (λ e, passes (default 0 (opt_afterSeq readOpts)) (opt_type readOpts) e = true)
           (entries_of JSON_parse raw)).
Proof. intros E. unfold read. simpl. by rewrite E, read_loop_unlimited. Qed.

(** [read] with a limit returns the first entries of what it returns
    without one: [limit] of them, one when the limit is zero or less. *)
Lemma read_limited (raw : string) (readOpts : ReadOpts) (n : Z) :
  opt_limit readOpts = Some n →
  read JSON_parse None (Some raw) readOpts
  = inr (take (Z.to_nat (Z.max 1 n))
           (filter (λ e, passes (default 0 (opt_afterSeq readOpts)) (opt_type readOpts) e = true)
              (entries_of JSON_parse raw))).
Proof.
  intros E. unfold read. simpl. rewrite E. f_equal.
  destruct (decide (n ≤ 0)) as [Hn|Hn].
  - rewrite read_loop_nonpositive by done.
    by replace (Z.to_nat (Z.max 1 n)) with 1%nat by lia.
  - destruct (read_loop_limited JSON_parse (default 0 (opt_afterSeq readOpts)) n
                (opt_type readOpts) (JS.split_nl raw) [])
      as (scanned & unread & _ & -> & _); [simpl; lia|].
    simpl. by replace (Z.to_nat (Z.max 1 n)) with (Z.to_nat n) by lia.
Qed.

Lemma entries_of_append_line (before json : string) :
  before = EmptyString ∨ (∃ b, before = b +:+ JS.newline) →
  JS.split_nl json = [json] →
  entries_of JSON_parse (before +:+ json +:+ JS.newline)
  = entries_of JSON_parse before ++ omap (decodable JSON_parse) [json].
Proof.
  intros [->|[b ->]] Hjson; unfold entries_of.
  - change (EmptyString +:+ json +:+ JS.newline)
      with (json +:+ JS.newline +:+ EmptyString).
    rewrite split_nl_app, Hjson, omap_app. simpl. by rewrite app_nil_r.
  - rewrite string_app_assoc.
    change (json +:+ JS.newline) with (json +:+ JS.newline +:+ EmptyString).
    change (b +:+ JS.newline) with (b +:+ JS.newline +:+ EmptyString).
    rewrite !split_nl_app, Hjson, !omap_app. simpl. by rewrite !app_nil_r.
Qed.

(** X5.  A record appended to a log whose file is missing, empty or ends with a
    line break is read back: [read] without a limit returns what it
    returned before the call and then the new entry, when the entry is
    past the cursor and of the type asked for.  The codec is supposed to
    write the entry on one line with visible text and to read it back. *)
Theorem read_after_append fuel now fault ty p st file r entry json readOpts old :
  default EmptyString file = EmptyString ∨
    (∃ b, default EmptyString file = b +:+ JS.newline) →
  append' fuel now fault ty p st file = Some r →
  returned r = inr entry →
  JSON_stringify entry = inr json →
  JS.split_nl json = [json] →
  JS.trim json ≠ EmptyString →
  JSON_parse json = Some entry →
  opt_limit readOpts = None →
  read JSON_parse None file readOpts = inr old →
  read JSON_parse None (file_after r) readOpts
  = inr (old ++ if passes (default 0 (opt_afterSeq readOpts)) (opt_type readOpts) entry
                then [entry] else []).
Proof.
  intros Hfile [_ Hr]%append_shape Hret Hjson Hline Hvis Hparse Hlimit Hold.
  rewrite Hret in Hr. destruct Hr as (_ & json' & Hjson' & ->).
  rewrite Hjson in Hjson'. injection Hjson' as <-.
  rewrite read_unlimited, entries_of_append_line, filter_app by done.
  assert (decodable JSON_parse json = Some entry) as Hdec.
  { unfold decodable. apply falsy_false in Hvis. by rewrite Hvis. }
  simpl. rewrite Hdec. simpl. rewrite filter_cons, filter_nil.
  assert (filter (λ e, passes (default 0 (opt_afterSeq readOpts)) (opt_type readOpts) e = true)
            (entries_of JSON_parse (default EmptyString file)) = old) as ->.
  { destruct file as [raw|]; simpl.
    - rewrite read_unlimited in Hold by done. by injection Hold.
    - by injection Hold as <-. }
  f_equal. f_equal. destruct (passes _ _ entry); [by rewrite decide_True|by rewrite decide_False].
Qed.

(** In a list in ascending order of [seq], the entries after [e] are those
    with a larger [seq]. *)
Lemma filter_above (front rest : list (EventLogEntry T)) (e : EventLogEntry T) :
  StronglySorted Z.lt (seq <$> (front ++ e :: rest)) →
  filter (λ x, seq e < seq x) (front ++ e :: rest) = rest.
Proof.
  rewrite fmap_app, fmap_cons, StronglySorted_app, StronglySorted_cons, Forall_fmap.
  intros (Hfront & _ & Hrest & _).
  rewrite filter_app, filter_cons_False by lia.
  assert (filter (λ x, seq e < seq x) front = []) as ->.
  { induction front as [|x front IH]; [done|].
    rewrite filter_cons_False.
    - apply IH. intros x1 x2 H1 H2. apply Hfront; [by right|done].
    - specialize (Hfront (seq x) (seq e)). 
      cut (seq x < seq e); [lia|]. apply Hfront; [left|left]. }
  simpl. clear Hfront. induction Hrest as [|x rest Hx Hrest IH]; [done|].
  rewrite filter_cons_True by exact Hx. by rewrite IH.
Qed.

(** X6.  Paging by cursor.  On a file that holds its records by ascending
    [seq], a consumer that reads a page with a limit and reads on from the
    [seq] of the last entry of the page misses nothing and gets nothing
    twice: the page followed by what comes after it is what one [read]
    from the first cursor returns. *)
Theorem read_pages_by_cursor (raw : string) (readOpts : ReadOpts)
    (page : list (EventLogEntry T)) (e : EventLogEntry T) :
  StronglySorted Z.lt (seq <$> entries_of JSON_parse raw) →
  read JSON_parse None (Some raw) readOpts = inr page →
  last page = Some e →
  ∃ rest,
    read JSON_parse None (Some raw)
      {| opt_afterSeq := Some (seq e); opt_limit := None; opt_type := opt_type readOpts |}
    = inr rest ∧
    read JSON_parse None (Some raw)
      {| opt_afterSeq := opt_afterSeq readOpts; opt_limit := None;
         opt_type := opt_type readOpts |}
    = inr (page ++ rest).
Proof.
  intros Hsorted Hpage Hlast.
  set (a := default 0 (opt_afterSeq readOpts)). set (ft := opt_type readOpts).
  set (all := filter (λ x, passes a ft x = true) (entries_of JSON_parse raw)).
  assert (∃ rest, all = page ++ rest) as [rest Hall].
  { destruct (opt_limit readOpts) as [n|] eqn:E.
    - rewrite (read_limited raw readOpts n E) in Hpage. injection Hpage as <-.
      exists (drop (Z.to_nat (Z.max 1 n)) all). by rewrite take_drop.
    - rewrite (read_unlimited raw readOpts E) in Hpage. injection Hpage as <-.
      exists []. by rewrite app_nil_r. }
  exists rest. rewrite !read_unlimited by done. simpl. fold a ft all.
  split; [|by rewrite Hall]. f_equal.
  apply last_Some in Hlast as [front ->].
  assert (passes a ft e = true) as He.
  { assert (e ∈ all) as Hin.
    { rewrite Hall. apply elem_of_app. left. apply elem_of_app. right. by left. }
    by apply list_elem_of_filter in Hin as [? _]. }
  assert (StronglySorted Z.lt (seq <$> all)) as Hsorted'.
  { eapply StronglySorted_sublist; [|done]. apply fmap_sublist, sublist_filter. }
  rewrite Hall, <- (assoc_L (++)) in Hsorted'. simpl in Hsorted'.
  rewrite <- (filter_above front rest e Hsorted').
  change (front ++ e :: rest) with (front ++ [e] ++ rest).
  rewrite (assoc_L (++)), <- Hall. unfold all.
  rewrite list_filter_filter. apply list_filter_iff. intros x.
  unfold passes in *. apply andb_true_iff in He as [He _].
  apply negb_true_iff, bool_decide_eq_false in He.
  destruct (type_mismatch ft x); simpl.
  - rewrite !andb_false_r. split; [done|by intros [_ ?]].
  - rewrite !andb_true_r, !negb_true_iff, !bool_decide_eq_false. lia.
Qed.

End ReadMore.

(** ** From when on a listener is notified *)

Section Delivery.

Context {T : Type}.
Variable JSON_stringify : EventLogEntry T → throws string.
Variable body : listener → EventLogEntry T → reaction.

Implicit Types (st : EventLog) (f fn l : listener) (r : setref).

Local Abbreviation append' := (append JSON_stringify body).
Local Abbreviation run' := (run JSON_stringify body).

Hypothesis inert : ∀ l (entry : EventLogEntry T), calls (body l entry) = [].

(** A loop over listeners that call nothing on the log, when it ends, has
    left the state alone and called the members from [index] on. *)
Lemma fan_out_inert_result fuel entry r index st got st' got' :
  fan_out body fuel entry r index st got = Some (st', got') →
  st' = st ∧ got' = got ++ JS.members (drop index (slots r st)).
Proof.
  revert index got. induction fuel as [|fuel IH]; intros index got; simpl.
  - destruct (slots r st !! index) eqn:E; [done|]. intros [= <- <-].
    rewrite drop_ge by by apply lookup_ge_None. by rewrite app_nil_r.
  - destruct (slots r st !! index) as [[fn|]|] eqn:E.
    + rewrite inert. simpl.
      intros [-> ->]%IH. split; [done|].
      rewrite (drop_S _ _ _ E), members_cons_Some. by rewrite <- (assoc_L (++)).
    + intros [-> ->]%IH. split; [done|].
      by rewrite (drop_S _ _ _ E), members_cons_None.
    + intros [= <- <-]. rewrite drop_ge by by apply lookup_ge_None.
      by rewrite app_nil_r.
Qed.

Lemma append_inert fuel now fault ty p st file res :
  append' fuel now fault ty p st file = Some res →
  log_after res = with_seq (lastSeq st + 1) st ∧
  (succeeded res → notified res = registered ty st).
Proof.
  unfold append, succeeded, lastSeq. simpl.
  destruct (JSON_stringify _) as [err|json]; [by intros [= <-]|].
  destruct fault as [wf|]; simpl; [by intros [= <-]|].
  destruct (fan_out _ _ _ Listeners _ _ _) as [[st1 got1]|] eqn:E1; simpl; [|done].
  apply fan_out_inert_result in E1 as [-> ->]. simpl.
  unfold registered, typeSet_of.
  destruct (st_typeListeners st !! ty) as [tSet|].
  - destruct (fan_out _ _ _ (TypeSet tSet) _ _ _) as [[st2 got2]|] eqn:E2; simpl; [|done].
    apply fan_out_inert_result in E2 as [-> ->]. by intros [= <-].
  - intros [= <-]. simpl. by rewrite app_nil_r.
Qed.

Lemma run_app fuel ops1 ops2 st file rs st' file' :
  run' fuel (ops1 ++ ops2) st file = Some (rs, st', file') →
  ∃ rs1 st1 file1 rs2,
    run' fuel ops1 st file = Some (rs1, st1, file1) ∧
    run' fuel ops2 st1 file1 = Some (rs2, st', file') ∧
    rs = rs1 ++ rs2.
Proof.
  revert st file rs. induction ops1 as [|[c|a] ops1 IH]; intros st file rs; simpl.
  - intros H. by exists [], st, file, rs.
  - destruct (append _ _ _ _ _ _ _ st file) as [r0|] eqn:E0; simpl; [|done].
    destruct (run _ _ _ (ops1 ++ ops2) _ _) as [[[rs0 st0] file0]|] eqn:Es; simpl; [|done].
    intros [= <- <- <-]. destruct (IH _ _ _ Es) as (rs1 & st1 & file1 & rs2 & -> & ? & ->).
    simpl. by exists (r0 :: rs1), st1, file1, rs2.
  - apply IH.
Qed.

(** The global set keeps a listener under every call but [close] and the
    function [subscribe] returned for it. *)
Lemma perform_keeps_listener f (a : action) st :
  a ≠ DoClose → a ≠ DoUnsubscribe (UnsubListener f) →
  Some f ∈ st_listeners st → Some f ∈ st_listeners (perform a st).
Proof.
  intros Hclose Hunsub Hin. destruct a as [l|ty l|[l|set ty l]|]; simpl.
  - unfold JS.add. destruct (JS.has l _); [done|]. apply elem_of_app. by left.
  - unfold subscribeType. by destruct (st_typeListeners st !! ty).
  - unfold JS.delete. apply list_elem_of_fmap. exists (Some f). split; [|done].
    rewrite decide_False; [done|]. intros [= ->]. by apply Hunsub.
  - destruct (alter _ set (st_sets st) !! set); [|done]. by case_bool_decide.
  - done.
Qed.

Lemma run_keeps_listener f fuel ops st file rs st' file' :
  (∀ a, Other a ∈ ops → a ≠ DoClose ∧ a ≠ DoUnsubscribe (UnsubListener f)) →
  Some f ∈ st_listeners st →
  run' fuel ops st file = Some (rs, st', file') →
  ∀ res, res ∈ rs → succeeded res → f ∈ notified res.
Proof.
  revert st file rs. induction ops as [|[c|a] ops IH]; intros st file rs Hops Hin; simpl.
  - intros [= <- _ _] res Hres. by apply elem_of_nil in Hres.
  - destruct (append _ _ _ _ _ _ _ st file) as [r0|] eqn:E0; simpl; [|done].
    destruct (run _ _ _ _ _ _) as [[[rs0 st0] file0]|] eqn:Es; simpl; [|done].
    intros [= <- <- <-] res. apply append_inert in E0 as [Hlog Hgot].
    intros [->|Hres]%elem_of_cons.
    + intros ->%Hgot. apply elem_of_app. left. by apply elem_of_members.
    + intros Hs. eapply IH; [| |exact Es|exact Hres|exact Hs].
      * intros a' Ha'. apply Hops. by right.
      * by rewrite Hlog.
  - destruct (Hops a) as [Hc Hu]; [by left|].
    apply IH; [|by apply perform_keeps_listener].
    intros a' Ha'. apply Hops. by right.
Qed.

(** X7.  A listener is told of the records appended from its call of
    [subscribe] on, and of none appended before: in a run of calls where
    it is subscribed once, and neither unsubscribed nor the log closed
    afterwards, no call of [append] before the subscription notifies it
    and every call after it that succeeds does.  The listeners are
    supposed not to call back into the log. *)
Theorem subscribe_gets_no_backlog f fuel ops1 ops2 st file rs st' file' :
  unregistered f st →
  (∀ a, Other a ∈ ops1 → ¬ subscribes f a) →
  (∀ a, Other a ∈ ops2 → a ≠ DoClose ∧ a ≠ DoUnsubscribe (UnsubListener f)) →
  run' fuel (ops1 ++ Other (DoSubscribe f) :: ops2) st file = Some (rs, st', file') →
  ∃ rs1 rs2 st1 file1,
    run' fuel ops1 st file = Some (rs1, st1, file1) ∧
    rs = rs1 ++ rs2 ∧
    (∀ res, res ∈ rs1 → f ∉ notified res) ∧
    (∀ res, res ∈ rs2 → succeeded res → f ∈ notified res).
Proof.
  intros Hout Hops1 Hops2 (rs1 & st1 & file1 & rs2 & Hrun1 & Hrun2 & ->)%run_app.
  exists rs1, rs2, st1, file1. split_and!; [done|done| |].
  - eapply run_unregistered; [|done|done|done].
    intros l entry a. rewrite inert. by intros ?%elem_of_nil.
  - simpl in Hrun2. eapply run_keeps_listener; [done| |done].
    apply elem_of_members.
    change (f ∈ JS.members (JS.add f (st_listeners st1))). rewrite members_add.
    case_bool_decide; [done|]. apply elem_of_app. right. by left.
Qed.

End Delivery.

(** ** The execution metrics file *)

Section MetricsFacts.

Context {M : Type}.
Variable JSON_parse : string → option M.
Variable JSON_stringify : M → throws string.

Local Abbreviation load := (ExecutionMetrics.load JSON_parse).
Local Abbreviation persist := (ExecutionMetrics.persist JSON_stringify).
Local Abbreviation parse_all := (ExecutionMetrics.parse_all JSON_parse).
Local Abbreviation stringify_all := (ExecutionMetrics.stringify_all JSON_stringify).
Local Abbreviation reads_back := (ExecutionMetrics.reads_back JSON_parse JSON_stringify).

(** One line that starts and ends with a character that is not white
    space. *)
Local Abbreviation visible_line :=
  (λ json : string,
     (∃ c rest, json = String c rest ∧ JS.isWhiteSpace c = false) ∧
     JS.trimEnd json = json ∧ JS.split_nl json = [json]).

Lemma trimEnd_snoc_newline (s : string) : JS.trimEnd (s +:+ JS.newline) = JS.trimEnd s.
Proof.
  induction s as [|c s IH]; [done|].
  change (String c s +:+ JS.newline) with (String c (s +:+ JS.newline)).
  by rewrite !trimEnd_cons, IH.
Qed.

Lemma trimEnd_app_visible (a b : string) :
  JS.trimEnd b = b → b ≠ EmptyString → JS.trimEnd (a +:+ b) = a +:+ b.
Proof.
  intros Hb Hne. induction a as [|c a IH]; [done|].
  change (String c a +:+ b) with (String c (a +:+ b)).
  rewrite trimEnd_cons, IH. destruct (a +:+ b) eqn:E; [|done].
  destruct a; [|done]. simpl in E. by subst.
Qed.

Lemma join_nl_cons (s s' : string) (rest : list string) :
  ExecutionMetrics.join_nl (s :: s' :: rest)
  = s +:+ JS.newline +:+ ExecutionMetrics.join_nl (s' :: rest).
Proof. done. Qed.

(** Lines joined by line breaks: the text starts and ends with a visible
    character and its lines are the ones joined. *)
Lemma join_nl_lines (jsons : list string) :
  jsons ≠ [] →
  Forall visible_line jsons →
  (∃ c rest, ExecutionMetrics.join_nl jsons = String c rest ∧ JS.isWhiteSpace c = false) ∧
  JS.trimEnd (ExecutionMetrics.join_nl jsons) = ExecutionMetrics.join_nl jsons ∧
  JS.split_nl (ExecutionMetrics.join_nl jsons) = jsons.
Proof.
  intros Hne Hall. induction Hall as [|j jsons Hj Hall IH]; [done|].
  destruct jsons as [|j' jsons]; [done|].
  destruct IH as ((c' & rest' & HJ & Hc') & HtrimJ & HsplitJ); [done|].
  destruct Hj as ((c & rest & -> & Hc) & Htrim & Hsplit).
  rewrite join_nl_cons. split_and!.
  - by eexists _, _.
  - apply trimEnd_app_visible; [|done].
    apply trimEnd_app_visible; [done|]. by rewrite HJ.
  - by rewrite split_nl_app, Hsplit, HsplitJ.
Qed.

Lemma stringify_all_reads_back (ms : list M) :
  Forall (λ m, reads_back m) ms →
  ∃ jsons, stringify_all ms = inr jsons ∧
           Forall visible_line jsons ∧
           parse_all jsons = Some ms ∧
           length jsons = length ms.
Proof.
  induction 1 as [|m ms (json & c & rest & Hjson & Hc & Hws & Htrim & Hsplit & Hparse) _ IH].
  - by exists [].
  - destruct IH as (jsons & Hall & Hlines & Hback & Hlen).
    exists (json :: jsons). simpl. rewrite Hjson, Hall, Hparse, Hback, Hlen.
    split_and!; [done| |done|done]. constructor; [|done].
    split_and!; [by exists c, rest|done|done].
Qed.

Lemma parse_all_None (lines : list string) (l : string) :
  l ∈ lines → JSON_parse l = None → parse_all lines = None.
Proof.
  intros Hin Hl. induction lines as [|l' lines IH]; [by apply elem_of_nil in Hin|].
  simpl. apply elem_of_cons in Hin as [<-|Hin]; [by rewrite Hl|].
  destruct (JSON_parse l'); [|done]. by rewrite IH.
Qed.

Lemma parse_all_Some (lines : list string) (ms : list M) :
  Forall2 (λ l m, JSON_parse l = Some m) lines ms → parse_all lines = Some ms.
Proof. induction 1 as [|l m lines ms Hl _ IH]; [done|]. simpl. by rewrite Hl, IH. Qed.

(** X8.  A metric recorded and persisted is on the disk with all those recorded
    before it: when neither [mkdir] nor [writeFile] fails, the file written
    replaces what was there, a collector that loads it holds exactly the
    metrics of the one that wrote it, in order, and a second [persist]
    writes nothing.  The codec is supposed to write a metric on one line
    and to read it back; no other [record] runs while [persist] does. *)
Theorem metrics_persist_then_load (m : M) (c c0 : ExecutionMetrics.ExecutionMetricsCollector)
    (file : option string) :
  Forall (λ m, reads_back m) (ExecutionMetrics.metrics c ++ [m]) →
  let after := persist None None (ExecutionMetrics.record m c) file in
  ExecutionMetrics.raw (fst after) = ExecutionMetrics.metrics c ++ [m] ∧
  ExecutionMetrics.dirty (fst after) = false ∧
  ExecutionMetrics.raw (load None (snd after) c0) = ExecutionMetrics.metrics c ++ [m] ∧
  persist None None (fst after) (snd after) = after.
Proof.
  intros (jsons & Hall & Hlines & Hback & Hlen)%stringify_all_reads_back.
  unfold ExecutionMetrics.persist, ExecutionMetrics.record. simpl. rewrite Hall. simpl.
  split_and!; [done|done| |done].
  assert (jsons ≠ []) as Hne.
  { intros ->. rewrite length_app in Hlen. simpl in Hlen. lia. }
  destruct (join_nl_lines jsons Hne Hlines) as ((ch & rest & HJ & Hch) & Htrim & Hsplit).
  unfold ExecutionMetrics.load, ExecutionMetrics.raw. simpl.
  unfold JS.trim. rewrite trimEnd_snoc_newline, Htrim.
  assert (JS.trimStart (ExecutionMetrics.join_nl jsons) = ExecutionMetrics.join_nl jsons)
    as ->.
  { rewrite HJ. simpl. by rewrite Hch. }
  rewrite Hsplit.
  assert (filter (λ l, JS.falsy l = false) jsons = jsons) as ->.
  { clear -Hlines. induction Hlines as [|j jsons ((ch & rest & -> & _) & _) _ IH]; [done|].
    by rewrite filter_cons_True, IH. }
  by rewrite Hback.
Qed.

(** X9.  [load] is all or nothing.  It replaces the metrics held: by none when
    the file is missing or cannot be read, by none when a single line that
    is not empty, be it blank, does not parse, and by the metrics of all the
    lines that are not empty otherwise.  It leaves [dirty] as it is. *)
Theorem metrics_load_all_or_nothing (fault : option Error) (file : option string)
    (c : ExecutionMetrics.ExecutionMetricsCollector) :
  ExecutionMetrics.dirty (load fault file c) = ExecutionMetrics.dirty c ∧
  (∀ err, fault = Some err → ExecutionMetrics.raw (load fault file c) = []) ∧
  ExecutionMetrics.raw (load None None c) = [] ∧
  (∀ text l, l ∈ JS.split_nl (JS.trim text) → l ≠ EmptyString → JSON_parse l = None →
             ExecutionMetrics.raw (load None (Some text) c) = []) ∧
  (∀ text ms,
     Forall2 (λ l m, JSON_parse l = Some m)
       (filter (λ l, l ≠ EmptyString) (JS.split_nl (JS.trim text))) ms →
     ExecutionMetrics.raw (load None (Some text) c) = ms).
Proof.
  assert (∀ lines : list string, filter (λ l, JS.falsy l = false) lines
                   = filter (λ l, l ≠ EmptyString) lines) as Hfilter.
  { intros lines. apply list_filter_iff. intros l. apply falsy_false. }
  split_and!; [done| |done| |].
  - by intros err ->.
  - intros text l Hin Hne Hl. unfold ExecutionMetrics.load, ExecutionMetrics.raw. simpl.
    rewrite (parse_all_None _ l); [done| |done].
    apply list_elem_of_filter. split; [by apply falsy_false|done].
  - intros text ms Hall. unfold ExecutionMetrics.load, ExecutionMetrics.raw. simpl.
    by rewrite Hfilter, (parse_all_Some _ ms).
Qed.

End MetricsFacts.

(** ** The circuit breaker *)

Section BreakerFacts.

Import CircuitBreaker.

Context {num : Type}.
Variable zero : num.
Variable add : num → num → num.
Variable lt ge : num → num → bool.
Variable abs : num → num.
Variable div : num → num → num.
Variable cooldown_text : Z → string.
Variable loss_text : num → num → string.
Variable clock : nat → Z.

Implicit Types (cb : DailyLossCircuitBreaker (num := num)) (u : use (num := num))
  (t n : Z) (e : num).

Local Abbreviation check' := (check zero add lt ge abs div cooldown_text loss_text clock).
Local Abbreviation step' := (step zero add lt ge abs div cooldown_text loss_text clock).
Local Abbreviation steps' := (steps zero add lt ge abs div cooldown_text loss_text clock).
Local Abbreviation recorded' :=
  (recorded zero add lt ge abs div cooldown_text loss_text clock).
Local Abbreviation day := (24 * 60 * 60 * 1000).

Lemma steps_cons u (us : list use) cb : steps' (u :: us) cb = steps' us (step' u cb).
Proof. done. Qed.

(** What each use leaves of the fields other than the log. *)
Lemma pruneOldEntries_fields cb :
  trippedAt (pruneOldEntries clock cb) = trippedAt cb ∧
  config (pruneOldEntries clock cb) = config cb ∧
  ticks (pruneOldEntries clock cb) = S (ticks cb).
Proof. done. Qed.

Lemma recordPnL_fields e cb :
  trippedAt (recordPnL clock e cb) = trippedAt cb ∧
  config (recordPnL clock e cb) = config cb ∧
  ticks (recordPnL clock e cb) = S (S (ticks cb)).
Proof. done. Qed.

Lemma check_in_cooldown e cb t :
  trippedAt cb = Some t →
  clock (ticks cb) - t < cooldownMs (config cb) →
  check' e cb
  = ({| allowed := false;
        reason := Some (cooldown_text (cooldownMs (config cb) - (clock (ticks cb) - t))) |},
     snd (now clock cb)).
Proof. intros Ht Hin. unfold check. rewrite Ht. simpl. by rewrite bool_decide_true. Qed.

Lemma step_in_cooldown (k0 : nat) (cfg : CircuitBreakerConfig) t u cb :
  (∀ k, (k0 ≤ k)%nat → clock k - t < cooldownMs cfg) →
  trippedAt cb = Some t → config cb = cfg → (k0 ≤ ticks cb)%nat →
  trippedAt (step' u cb) = Some t ∧ config (step' u cb) = cfg ∧
  (k0 ≤ ticks (step' u cb))%nat.
Proof.
  intros Hclock Ht Hcfg Hk. destruct u as [p|e| |]; simpl.
  - split_and!; [done|done|lia].
  - rewrite (check_in_cooldown e cb t); [|done|rewrite Hcfg; by apply Hclock].
    simpl. split_and!; [done|done|lia].
  - split_and!; [done|done|lia].
  - unfold isTripped. rewrite Ht. simpl. split_and!; [done|done|lia].
Qed.

Lemma steps_in_cooldown (k0 : nat) (cfg : CircuitBreakerConfig) t (us : list use) cb :
  (∀ k, (k0 ≤ k)%nat → clock k - t < cooldownMs cfg) →
  trippedAt cb = Some t → config cb = cfg → (k0 ≤ ticks cb)%nat →
  trippedAt (steps' us cb) = Some t ∧ config (steps' us cb) = cfg ∧
  (k0 ≤ ticks (steps' us cb))%nat.
Proof.
  intros Hclock. revert cb. induction us as [|u us IH]; intros cb Ht Hcfg Hk; [done|].
  rewrite steps_cons.
  destruct (step_in_cooldown k0 cfg t u cb) as (? & ? & ?); [done..|].
  by apply IH.
Qed.

(** X10.  Nothing but time lifts a trip.  Once the breaker has tripped, as long
    as the clock reads less than the cooldown after the trip, whatever is
    recorded, checked or looked at, the trip time is kept, [check] refuses
    for every equity and [isTripped] is true. *)
Theorem breaker_locked_during_cooldown (us : list use) cb t e :
  trippedAt cb = Some t →
  (∀ k, (ticks cb ≤ k)%nat → clock k - t < cooldownMs (config cb)) →
  trippedAt (steps' us cb) = Some t ∧
  allowed (fst (check' e (steps' us cb))) = false ∧
  fst (isTripped clock (steps' us cb)) = true.
Proof.
  intros Ht Hclock.
  destruct (steps_in_cooldown (ticks cb) (config cb) t us cb) as (Ht' & Hcfg' & Hk');
    [done..|].
  split_and!; [done| |].
  - rewrite (check_in_cooldown e _ t); [done|done|]. rewrite Hcfg'. by apply Hclock.
  - unfold isTripped. rewrite Ht'. simpl. rewrite Hcfg'.
    apply bool_decide_eq_true. by apply Hclock.
Qed.

(** [check] from the pruning on, for a breaker that is not tripped or
    whose cooldown is over. *)
Lemma check_open e cb :
  trippedAt cb = None →
  check' e cb
  = let cb := pruneOldEntries clock cb in
    let totalPnL := total zero add (pnlLog cb) in
    if lt zero e && lt totalPnL zero && ge (div (abs totalPnL) e) (maxDailyLossPct (config cb))
    then ({| allowed := false;
             reason := Some (loss_text (div (abs totalPnL) e) (maxDailyLossPct (config cb))) |},
          with_trippedAt (Some (clock (ticks cb))) (snd (now clock cb)))
    else ({| allowed := true; reason := None |}, cb).
Proof.
  intros Ht. unfold check. rewrite Ht. simpl.
  destruct (lt zero e && lt _ zero); [|done]. simpl. by destruct (ge _ _).
Qed.

Lemma check_cooled e cb t :
  trippedAt cb = Some t →
  ¬ clock (ticks cb) - t < cooldownMs (config cb) →
  check' e cb = check' e (with_trippedAt None (snd (now clock cb))).
Proof.
  intros Ht Hout. unfold check at 1. rewrite Ht. simpl.
  rewrite bool_decide_false by done. rewrite check_open by done. simpl.
  destruct (lt zero e && lt _ zero); [|done]. simpl. by destruct (ge _ _).
Qed.

(** X11.  [check] and [isTripped] agree.  With a cooldown above zero and a
    clock that does not move meanwhile, [isTripped] read right after a
    [check] is true when the check refused and false when it allowed. *)
Theorem isTripped_after_check e cb (c : Z) :
  0 < cooldownMs (config cb) →
  (∀ k, (ticks cb ≤ k)%nat → clock k = c) →
  fst (isTripped clock (snd (check' e cb))) = negb (allowed (fst (check' e cb))).
Proof.
  intros Hcd Hclock.
  assert (∀ cb', trippedAt cb' = None → config cb' = config cb →
                 (ticks cb ≤ ticks cb')%nat →
                 fst (isTripped clock (snd (check' e cb')))
                 = negb (allowed (fst (check' e cb')))) as Hopen.
  { intros cb' Ht Hcfg Hk. rewrite (check_open e cb' Ht). simpl.
    destruct (_ && _ && _); simpl; [|unfold isTripped; simpl; by rewrite Ht].
    unfold isTripped. simpl. rewrite Hcfg, !Hclock by lia.
    apply bool_decide_eq_true. lia. }
  destruct (trippedAt cb) as [t|] eqn:Ht; [|by apply Hopen].
  destruct (decide (clock (ticks cb) - t < cooldownMs (config cb))) as [Hin|Hout].
  - rewrite (check_in_cooldown e cb t Ht Hin). unfold isTripped. simpl. rewrite Ht.
    simpl. rewrite Hclock by lia. rewrite Hclock in Hin by lia.
    by apply bool_decide_eq_true.
  - rewrite (check_cooled e cb t Ht Hout). apply Hopen; simpl; [done|done|lia].
Qed.

Lemma filter_Forall_id {A} (P : A → Prop) `{∀ x, Decision (P x)} (l : list A) :
  Forall P l → filter P l = l.
Proof. induction 1 as [|x l Hx _ IH]; [done|]. by rewrite filter_cons_True, IH. Qed.

(** X12.  The cooldown alone does not clear a loss.  When a check trips the
    breaker and the next one comes after the cooldown while every entry of
    the log is still less than 24 hours old, that check, for the same
    equity, trips the breaker again. *)
Theorem breaker_trips_again e cb (v : Verdict) cb1 :
  trippedAt cb = None →
  check' e cb = (v, cb1) →
  allowed v = false →
  (∀ t, trippedAt cb1 = Some t → cooldownMs (config cb1) ≤ clock (ticks cb1) - t) →
  Forall (λ x, clock (S (ticks cb1)) - day ≤ timestamp x) (pnlLog cb1) →
  fst (check' e cb1) = v ∧
  trippedAt (snd (check' e cb1)) = Some (clock (S (S (ticks cb1)))).
Proof.
  intros Ht. rewrite (check_open e cb Ht). simpl.
  destruct (_ && _ && _) eqn:Htrip; [|by intros [= <- <-]].
  intros [= <- <-] _ Hcooled Hfresh. simpl in *.
  set (cb1 := with_trippedAt _ _).
  assert (check' e cb1 = check' e (with_trippedAt None (snd (now clock cb1)))) as ->.
  { apply (check_cooled e cb1 (clock (S (ticks cb)))); [done|].
    specialize (Hcooled _ eq_refl). simpl. lia. }
  rewrite check_open by done. simpl.
  rewrite (filter_Forall_id _ _ Hfresh), Htrip. done.
Qed.

(** The log against the history of what was recorded: they hold the same
    entries from every cutoff on that is not earlier than the one of the
    next reading of the clock. *)
Local Abbreviation agrees cb hist :=
  (∀ c : Z, clock (ticks cb) - day ≤ c →
            filter (λ x : PnLEntry, c ≤ timestamp x) (pnlLog cb)
            = filter (λ x : PnLEntry, c ≤ timestamp x) hist).

Hypothesis clock_mono : ∀ i j, (i ≤ j)%nat → clock i ≤ clock j.

Lemma agrees_later (log hist : list (PnLEntry (num := num))) (k k' : nat) :
  (k ≤ k')%nat →
  (∀ c : Z, clock k - day ≤ c →
            filter (λ x : PnLEntry, c ≤ timestamp x) log
            = filter (λ x : PnLEntry, c ≤ timestamp x) hist) →
  ∀ c : Z, clock k' - day ≤ c →
           filter (λ x : PnLEntry, c ≤ timestamp x) log
           = filter (λ x : PnLEntry, c ≤ timestamp x) hist.
Proof. intros Hk Hcb c Hc. apply Hcb. pose proof (clock_mono _ _ Hk). lia. Qed.

Lemma agrees_prune cb (hist : list PnLEntry) :
  agrees cb hist → agrees (pruneOldEntries clock cb) hist.
Proof.
  intros Hcb c Hc. simpl in *.
  pose proof (clock_mono (ticks cb) (S (ticks cb))).
  rewrite list_filter_filter_l by (intros x; lia). apply Hcb. lia.
Qed.

Lemma agrees_record e cb (hist : list PnLEntry) :
  agrees cb hist →
  agrees (recordPnL clock e cb) (hist ++ [{| timestamp := clock (ticks cb); pnl := e |}]).
Proof.
  intros Hcb.
  apply (agrees_prune
           (with_pnlLog (pnlLog cb ++ [{| timestamp := clock (ticks cb); pnl := e |}])
              (snd (now clock cb)))).
  intros c Hc. simpl in *.
  pose proof (clock_mono (ticks cb) (S (ticks cb))).
  rewrite !filter_app. f_equal. apply Hcb. lia.
Qed.

Lemma agrees_check e cb (hist : list PnLEntry) :
  agrees cb hist → agrees (snd (check' e cb)) hist.
Proof.
  intros Hcb.
  assert (∀ cb', trippedAt cb' = None → agrees cb' hist →
                 agrees (snd (check' e cb')) hist) as Hopen.
  { intros cb' Ht Hcb'. rewrite (check_open e cb' Ht). simpl.
    destruct (_ && _ && _); simpl; [|exact (agrees_prune cb' hist Hcb')].
    apply (agrees_later _ _ (S (ticks cb'))); [lia|].
    exact (agrees_prune cb' hist Hcb'). }
  destruct (trippedAt cb) as [t|] eqn:Ht; [|by apply Hopen].
  destruct (decide (clock (ticks cb) - t < cooldownMs (config cb))) as [Hin|Hout].
  - rewrite (check_in_cooldown e cb t Ht Hin). simpl.
    apply (agrees_later _ _ (ticks cb)); [lia|done].
  - rewrite (check_cooled e cb t Ht Hout). apply Hopen; [done|]. simpl.
    apply (agrees_later _ _ (ticks cb)); [lia|done].
Qed.

Lemma agrees_steps (us : list use) cb (hist : list PnLEntry) :
  agrees cb hist → agrees (steps' us cb) (hist ++ recorded' us cb).
Proof.
  revert cb hist. induction us as [|u us IH]; intros cb hist Hcb.
  - simpl. by rewrite app_nil_r.
  - rewrite steps_cons. simpl. rewrite (assoc_L (++)). apply IH.
    destruct u as [p|e| |]; simpl; rewrite ?app_nil_r.
    + exact (agrees_record p cb hist Hcb).
    + exact (agrees_check e cb hist Hcb).
    + exact (agrees_prune cb hist Hcb).
    + unfold isTripped. destruct (trippedAt cb); simpl; [|done].
      apply (agrees_later _ _ (ticks cb)); [lia|done].
Qed.

(** X13.  Pruning loses nothing that counts.  Under a clock that never goes
    back, after any uses of a new breaker, [rollingPnL] is the sum, in the
    order of recording, of exactly the PnL events recorded so far whose
    time is not more than 24 hours before the reading of the clock. *)
Theorem rollingPnL_is_window_sum (five_percent : num) (maxDailyLossPct' : option num)
    (cooldownMs' : option Z) (us : list use) :
  let cb0 := constructor five_percent maxDailyLossPct' cooldownMs' in
  let cb := steps' us cb0 in
  fst (rollingPnL zero add clock cb)
  = total zero add
      (filter (λ x, clock (ticks cb) - day ≤ timestamp x) (recorded' us cb0)).
Proof.
  intros cb0 cb. unfold rollingPnL. simpl. f_equal.
  assert (agrees cb0 []) as H0 by done.
  exact (agrees_steps us cb0 [] H0 (clock (ticks cb) - day) (Z.le_refl _)).
Qed.

End BreakerFacts.

(** ** The further properties on concrete logs, breakers and collectors *)

Lemma subscribeType_then_unsubscribe_witness :
  let st := MiniJSON.three_listeners in
  let st1 := snd (subscribeType "A" 4%nat st) in
  let st2 := call_unsubscribe (fst (subscribeType "A" 4%nat st)) st1 in
  JS.members (typeSet_of "A" st2)
  = filter (λ x, x ≠ 4%nat) (JS.members (typeSet_of "A" st)).
Proof.
  destruct (subscribeType_then_unsubscribe MiniJSON.parse MiniJSON.stringify MiniJSON.quiet
              None None None MiniJSON.fresh 0
              [Other (DoSubscribe 1%nat); Other (DoSubscribe 2%nat);
               Other (DoSubscribeType "A" 3%nat)]
              [] MiniJSON.three_listeners None "A" 4%nat) as (_ & H & _).
  - reflexivity.
  - reflexivity.
  - exact H.
Defined.

Lemma append_seq_strictly_increasing_witness :
  ∃ rs st' file',
    run MiniJSON.stringify MiniJSON.quiet 4
      [Append (MiniJSON.call "A" 1);
       Append {| call_type := "A"; call_payload := MiniJSON.Null;
                 call_now := 1700000000002; call_fault := Some MiniJSON.disk_full |};
       Append (MiniJSON.call "A" 3)]
      MiniJSON.fresh None = Some (rs, st', file') ∧
    lastSeq st' = lastSeq MiniJSON.fresh + Z.of_nat (length rs).
Proof.
  destruct (run MiniJSON.stringify MiniJSON.quiet 4
              [Append (MiniJSON.call "A" 1);
               Append {| call_type := "A"; call_payload := MiniJSON.Null;
                         call_now := 1700000000002;
                         call_fault := Some MiniJSON.disk_full |};
               Append (MiniJSON.call "A" 3)]
              MiniJSON.fresh None) as [[[rs st'] file']|] eqn:E;
    [|by vm_compute in E].
  exists rs, st', file'. split; [done|].
  pose proof E as E'. vm_compute in E'. injection E' as Hrs _ _.
  destruct (append_seq_strictly_increasing MiniJSON.stringify MiniJSON.quiet 4
              [Append (MiniJSON.call "A" 1);
               Append {| call_type := "A"; call_payload := MiniJSON.Null;
                         call_now := 1700000000002;
                         call_fault := Some MiniJSON.disk_full |};
               Append (MiniJSON.call "A" 3)]
              MiniJSON.fresh None rs st' file') as [H _]; [| |exact E|exact H].
  - split; vm_compute; discriminate.
  - rewrite <- Hrs. split; vm_compute; discriminate.
Defined.

Lemma resetForTest_starts_over_witness :
  let '(res, st', file') := _resetForTest None MiniJSON.three_listeners (Some "x") in
  res = inr () ∧ file' = None ∧ lastSeq st' = 0 ∧ registered "A" st' = [].
Proof.
  pose proof (resetForTest_starts_over MiniJSON.stringify MiniJSON.quiet None
                MiniJSON.three_listeners (Some "x")) as H.
  destruct (_resetForTest None MiniJSON.three_listeners (Some "x")) as [[res st'] file'].
  destruct H as (Hseq & Hreg & Hok & _). destruct (Hok eq_refl) as [-> ->].
  by rewrite Hseq, Hreg.
Defined.

Lemma read_after_append_witness :
  ∃ r, append MiniJSON.stringify MiniJSON.quiet 0 1700000000002 None "B" MiniJSON.Null
         (with_seq 1 MiniJSON.fresh) (Some (MiniJSON.line_of (MiniJSON.entry 1 "A")))
       = Some r ∧
       read MiniJSON.parse None (file_after r) noOpts
       = inr [MiniJSON.entry 1 "A"; MiniJSON.entry 2 "B"].
Proof.
  destruct (append MiniJSON.stringify MiniJSON.quiet 0 1700000000002 None "B"
              MiniJSON.Null (with_seq 1 MiniJSON.fresh)
              (Some (MiniJSON.line_of (MiniJSON.entry 1 "A")))) as [r|] eqn:E;
    [|by vm_compute in E].
  exists r. split; [done|].
  pose proof E as E'. vm_compute in E'. injection E' as Hr.
  rewrite (read_after_append MiniJSON.parse MiniJSON.stringify MiniJSON.quiet
             0 1700000000002 None "B" MiniJSON.Null (with_seq 1 MiniJSON.fresh)
             (Some (MiniJSON.line_of (MiniJSON.entry 1 "A"))) r
             (MiniJSON.entry 2 "B") (MiniJSON.json_of (MiniJSON.entry 2 "B"))
             noOpts [MiniJSON.entry 1 "A"]).
  - reflexivity.
  - right. by exists (MiniJSON.json_of (MiniJSON.entry 1 "A")).
  - exact E.
  - by rewrite <- Hr.
  - vm_compute. reflexivity.
  - vm_compute. reflexivity.
  - vm_compute. discriminate.
  - vm_compute. reflexivity.
  - reflexivity.
  - vm_compute. reflexivity.
Defined.

Lemma read_pages_by_cursor_witness :
  let file := MiniJSON.line_of (MiniJSON.entry 1 "A") +:+
              MiniJSON.line_of (MiniJSON.entry 2 "A") +:+
              MiniJSON.line_of (MiniJSON.entry 3 "B") in
  ∃ rest,
    read MiniJSON.parse None (Some file)
      {| opt_afterSeq := Some 2; opt_limit := None; opt_type := None |} = inr rest ∧
    read MiniJSON.parse None (Some file)
      {| opt_afterSeq := None; opt_limit := None; opt_type := None |}
    = inr ([MiniJSON.entry 1 "A"; MiniJSON.entry 2 "A"] ++ rest).
Proof.
  apply (read_pages_by_cursor MiniJSON.parse
           (MiniJSON.line_of (MiniJSON.entry 1 "A") +:+
            MiniJSON.line_of (MiniJSON.entry 2 "A") +:+
            MiniJSON.line_of (MiniJSON.entry 3 "B"))
           {| opt_afterSeq := None; opt_limit := Some 2; opt_type := None |}
           [MiniJSON.entry 1 "A"; MiniJSON.entry 2 "A"] (MiniJSON.entry 2 "A")).
  - apply (bool_decide_unpack _). vm_compute. exact I.
  - vm_compute. reflexivity.
  - reflexivity.
Defined.

Lemma subscribe_gets_no_backlog_witness :
  ∃ rs1 rs2 st1 file1,
    run MiniJSON.stringify MiniJSON.quiet 4 [Append (MiniJSON.call "A" 1)]
      MiniJSON.fresh None = Some (rs1, st1, file1) ∧
    length (rs1 ++ rs2) = 2%nat ∧
    (∀ res, res ∈ rs1 → 9%nat ∉ notified res) ∧
    (∀ res, res ∈ rs2 → succeeded res → 9%nat ∈ notified res).
Proof.
  destruct (run MiniJSON.stringify MiniJSON.quiet 4
              ([Append (MiniJSON.call "A" 1)] ++
               Other (DoSubscribe 9%nat) :: [Append (MiniJSON.call "A" 2)])
              MiniJSON.fresh None) as [[[rs st'] file']|] eqn:E;
    [|by vm_compute in E].
  destruct (subscribe_gets_no_backlog MiniJSON.stringify MiniJSON.quiet
              (λ _ _, eq_refl) 9%nat 4
              [Append (MiniJSON.call "A" 1)] [Append (MiniJSON.call "A" 2)]
              MiniJSON.fresh None rs st' file')
    as (rs1 & rs2 & st1 & file1 & Hrun & Hrs & Hbefore & Hafter).
  - split; [apply not_elem_of_nil|]. intros ty set.
    change (st_typeListeners MiniJSON.fresh) with (∅ : gmap string nat).
    by rewrite lookup_empty.
  - intros a Ha. repeat (apply elem_of_cons in Ha as [Ha | Ha]; [by simplify_eq|]).
    by apply elem_of_nil in Ha.
  - intros a Ha. repeat (apply elem_of_cons in Ha as [Ha | Ha]; [by simplify_eq|]).
    by apply elem_of_nil in Ha.
  - exact E.
  - exists rs1, rs2, st1, file1. split_and!; [done| |done|done].
    rewrite <- Hrs. vm_compute in E. by injection E as <-.
Defined.

Lemma metrics_persist_then_load_witness :
  let after := ExecutionMetrics.persist MiniJSON.stringify None None
                 (ExecutionMetrics.record (MiniJSON.entry 1 "A") ExecutionMetrics.new)
                 (Some "stale") in
  ExecutionMetrics.raw (ExecutionMetrics.load MiniJSON.parse None (snd after)
                          ExecutionMetrics.new)
  = [MiniJSON.entry 1 "A"].
Proof.
  destruct (metrics_persist_then_load MiniJSON.parse MiniJSON.stringify
              (MiniJSON.entry 1 "A") ExecutionMetrics.new ExecutionMetrics.new
              (Some "stale")) as (_ & _ & H & _).
  - constructor; [|constructor].
    eexists _, _, _. split_and!; [reflexivity|reflexivity|reflexivity| | |];
      vm_compute; reflexivity.
  - exact H.
Defined.

Lemma metrics_load_all_or_nothing_witness :
  ExecutionMetrics.raw
    (ExecutionMetrics.load MiniJSON.parse None
       (Some (MiniJSON.line_of (MiniJSON.entry 1 "A") +:+ "{truncated"))
       ExecutionMetrics.new)
  = [].
Proof.
  destruct (metrics_load_all_or_nothing MiniJSON.parse None
              (Some (MiniJSON.line_of (MiniJSON.entry 1 "A") +:+ "{truncated"))
              ExecutionMetrics.new) as (_ & _ & _ & H & _).
  apply (H _ "{truncated").
  - replace (JS.split_nl (JS.trim (MiniJSON.line_of (MiniJSON.entry 1 "A") +:+ "{truncated")))
      with [MiniJSON.json_of (MiniJSON.entry 1 "A"); "{truncated"]
      by (vm_compute; reflexivity).
    right. left.
  - discriminate.
  - vm_compute. reflexivity.
Defined.

Lemma breaker_locked_during_cooldown_witness :
  let clock := λ _ : nat, 1000 in
  let cb := snd (CircuitBreaker.exact_check clock (CircuitBreaker.units 1000)
                   (CircuitBreaker.exact_recordPnL clock (CircuitBreaker.units (-100))
                      CircuitBreaker.exact_new)) in
  CircuitBreaker.trippedAt cb = Some 1000 ∧
  CircuitBreaker.allowed
    (fst (CircuitBreaker.exact_check clock (CircuitBreaker.units 1000000)
            (CircuitBreaker.exact_steps clock
               [CircuitBreaker.RecordPnL (CircuitBreaker.units 5000);
                CircuitBreaker.Check (CircuitBreaker.units 1000000)] cb)))
  = false.
Proof.
  intros clock cb. split; [reflexivity|].
  apply (breaker_locked_during_cooldown _ _ _ _ _ _ _ _ clock
           [CircuitBreaker.RecordPnL (CircuitBreaker.units 5000);
            CircuitBreaker.Check (CircuitBreaker.units 1000000)] cb 1000).
  - reflexivity.
  - intros k _. reflexivity.
Defined.

Lemma isTripped_after_check_witness :
  let clock := λ _ : nat, 1000 in
  let cb := CircuitBreaker.exact_recordPnL clock (CircuitBreaker.units (-100))
              CircuitBreaker.exact_new in
  fst (CircuitBreaker.exact_isTripped clock
         (snd (CircuitBreaker.exact_check clock (CircuitBreaker.units 1000) cb)))
  = negb (CircuitBreaker.allowed
            (fst (CircuitBreaker.exact_check clock (CircuitBreaker.units 1000) cb))).
Proof.
  intros clock cb.
  apply (isTripped_after_check _ _ _ _ _ _ _ _ clock (CircuitBreaker.units 1000) cb 1000).
  - reflexivity.
  - intros k _. reflexivity.
Defined.

Lemma breaker_trips_again_witness :
  let clock := CircuitBreaker.two_instants 4 0 3600000 in
  let cb := CircuitBreaker.exact_recordPnL clock (CircuitBreaker.units (-100))
              (CircuitBreaker.constructor (QArith_base.Qmake 5 100) None (Some 3600000)) in
  let cb1 := snd (CircuitBreaker.exact_check clock (CircuitBreaker.units 1000) cb) in
  CircuitBreaker.trippedAt cb1 = Some 0 ∧
  CircuitBreaker.trippedAt
    (snd (CircuitBreaker.exact_check clock (CircuitBreaker.units 1000) cb1))
  = Some 3600000.
Proof.
  intros clock cb cb1. split; [reflexivity|].
  destruct (breaker_trips_again (QArith_base.Qmake 0 1) QArith_base.Qplus
              CircuitBreaker.Qlt_bool (λ a b, QArith_base.Qle_bool b a) Qabs.Qabs
              QArith_base.Qdiv (λ _, "cooldown") (λ _ _, "loss")
              clock (CircuitBreaker.units 1000) cb
              (fst (CircuitBreaker.exact_check clock (CircuitBreaker.units 1000) cb)) cb1)
    as [_ H].
  - reflexivity.
  - reflexivity.
  - reflexivity.
  - intros t [= <-]. by vm_compute.
  - apply (bool_decide_unpack _). vm_compute. exact I.
  - exact H.
Defined.

Lemma rollingPnL_is_window_sum_witness :
  let clock := CircuitBreaker.two_instants 2 0 90000000 in
  let us := [CircuitBreaker.RecordPnL (CircuitBreaker.units (-100));
             CircuitBreaker.RecordPnL (CircuitBreaker.units 30)] in
  let cb := CircuitBreaker.exact_steps clock us CircuitBreaker.exact_new in
  fst (CircuitBreaker.exact_rollingPnL clock cb)
  = CircuitBreaker.exact_total
      (filter (λ x, clock (CircuitBreaker.ticks cb) - 24 * 60 * 60 * 1000
                    ≤ CircuitBreaker.timestamp x)
         (CircuitBreaker.exact_recorded clock us CircuitBreaker.exact_new)).
Proof.
  intros clock us cb.
  apply (rollingPnL_is_window_sum _ _ _ _ _ _ _ _ clock).
  intros i j Hij. unfold clock, CircuitBreaker.two_instants.
  repeat case_bool_decide; lia.
Defined.
